(** * MyUniquePtr: an exclusive-ownership smart pointer

    A shallow embedding of [MyUnique_ptr/MyUnique_ptr.cpp]: the class
    template [MyUniquePtr<T, Deleter>], the two [DefaultDeleter]
    templates and the scalar [make_unique] overload, over an explicit
    model of the free store and of the table of live owner objects; and
    the pointer types that the array overload of [make_unique] and the
    instantiation [MyUniquePtr<T[]>] put together. *)

From stdpp Require Import base gmap list.
From Stdlib Require Import ZArith.

Local Open Scope Z_scope.

(** ** The free store *)

(** A raw pointer [T*] is the base address of a block; [nullptr] is 0. *)
Definition nullptr : Z := 0.

(** Which new-expression produced a block: [new T(...)] or [new T[n]()]. *)
Inductive new_form : Set := new_single | new_array.

#[global] Instance new_form_eq_dec : EqDecision new_form.
Proof. solve_decision. Defined.

Record block (T : Type) : Type := Block { form : new_form; cells : list T }.
Arguments Block {T} _ _.
Arguments form {T} _.
Arguments cells {T} _.

(** The store: the live blocks, and the journal of the delete-expressions
    evaluated so far ([delete p] is journalled as [(new_single, p)],
    [delete[] p] as [(new_array, p)]). *)
Record Mem (T : Type) : Type :=
  MkMem { blocks : gmap Z (block T); deleted : list (new_form * Z) }.
Arguments MkMem {T} _ _.
Arguments blocks {T} _.
Arguments deleted {T} _.

(** The allocation function behind a new-expression is not part of the
    repository and is taken as a parameter: it either reports failure
    ([None], [std::bad_alloc]) or returns an address. The count is in
    elements. *)
Class Allocator (T : Type) : Type := operator_new : Mem T → nat → option Z.

(** Its contract: a returned address is non-null and not in use. *)
Definition operator_new_contract (T : Type) `{!Allocator T} : Prop :=
  ∀ (m : Mem T) (n : nat) (p : Z),
    operator_new m n = Some p → p ≠ nullptr ∧ blocks m !! p = None.

Section free_store.
Context {T : Type}.

(** [new T(v)] is [new_expr new_single [v]]; an array new-expression is
    [new_expr new_array] on the initial elements. [None] is the
    allocation failure. *)
Definition new_expr `{!Allocator T} (f : new_form) (init : list T) (m : Mem T)
  : option (Z * Mem T) :=
  match operator_new m (length init) with
  | Some p => Some (p, MkMem (<[p := Block f init]> (blocks m)) (deleted m))
  | None => None
  end.

(** [delete p] and [delete[] p]. On a null pointer nothing happens; on a
    block made by the matching new-expression the block is released;
    anything else has no defined behaviour ([None]). *)
Definition delete_expr (f : new_form) (p : Z) (m : Mem T) : option (Mem T) :=
  if decide (p = nullptr) then Some m
  else match blocks m !! p with
       | Some b =>
           if decide (form b = f)
           then Some (MkMem (delete p (blocks m)) (deleted m ++ [(f, p)]))
           else None
       | None => None
       end.

(** [p[i]] as an rvalue and [p[i] = v]. *)
Definition load (p : Z) (i : nat) (m : Mem T) : option T :=
  match blocks m !! p with
  | Some b => cells b !! i
  | None => None
  end.

Definition store (p : Z) (i : nat) (v : T) (m : Mem T) : option (Mem T) :=
  match blocks m !! p with
  | Some b =>
      if decide (i < length (cells b))%nat
      then Some (MkMem (<[p := Block (form b) (<[i := v]> (cells b))]> (blocks m))
                       (deleted m))
      else None
  | None => None
  end.

End free_store.

(** ** Owners and releasers *)

(** [class MyUniquePtr { T* ptr; Deleter deleter; }]. *)
Record MyUniquePtr (D : Type) : Type := MkOwner { ptr : Z; deleter : D }.
Arguments MkOwner {D} _ _.
Arguments ptr {D} _.
Arguments deleter {D} _.

(** What the class template needs from its [Deleter] parameter:
    - [call d p]: the effect of [d(p)]. It acts on the free store; it is
      shown the owner objects as they are at the moment of the call, and
      [None] means the call has no defined behaviour;
    - [moved_from d]: what is left in a deleter holding [d] after
      [std::move] took its value;
    - [default_init]: the value of a default-initialised member. *)
Class Deleter (T D : Type) : Type := {
  call : D → Z → gmap nat (MyUniquePtr D) → Mem T → option (Mem T);
  moved_from : D → D;
  default_init : D
}.

(** The machine state: the live owner objects by identity (their
    address), the free store, and the record of every releaser invocation
    [deleter(ptr)] made by an owner, oldest first. *)
Record Config (T D : Type) : Type :=
  MkConfig { owners : gmap nat (MyUniquePtr D);
             mem : Mem T;
             calls : list (D * Z) }.
Arguments MkConfig {T D} _ _ _.
Arguments owners {T D} _.
Arguments mem {T D} _.
Arguments calls {T D} _.

(** ** The monad of member functions *)

Inductive exn : Set := bad_alloc.

(** A computation returns normally, leaves by an exception, or has no
    defined behaviour. *)
Inductive outcome (S A : Type) : Type :=
| Ok (a : A) (s : S)
| Throw (e : exn) (s : S)
| Undefined.
Arguments Ok {S A} _ _.
Arguments Throw {S A} _ _.
Arguments Undefined {S A}.

Definition M (S A : Type) : Type := S → outcome S A.

Definition ret {S A} (a : A) : M S A := λ s, Ok a s.

Definition bind {S A B} (m : M S A) (k : A → M S B) : M S B :=
  λ s, match m s with
       | Ok a s' => k a s'
       | Throw e s' => Throw e s'
       | Undefined => Undefined
       end.

Declare Scope cxx_scope.
Delimit Scope cxx_scope with cxx.
Notation "x <- c1 ;; c2" := (bind c1 (λ x, c2))
  (at level 100, c1 at next level, right associativity) : cxx_scope.
Notation "c1 ;; c2" := (bind c1 (λ _, c2))
  (at level 100, right associativity) : cxx_scope.

Section MyUniquePtr.
Context {T D : Type} `{!Deleter T D}.

Local Abbreviation Cfg := (Config T D).
Local Open Scope cxx_scope.

(** *** Member access through [this] *)

Definition read_ptr (this : nat) : M Cfg Z :=
  λ c, match owners c !! this with
       | Some o => Ok (ptr o) c
       | None => Undefined
       end.

Definition read_deleter (this : nat) : M Cfg D :=
  λ c, match owners c !! this with
       | Some o => Ok (deleter o) c
       | None => Undefined
       end.

Definition write_ptr (this : nat) (p : Z) : M Cfg unit :=
  λ c, match owners c !! this with
       | Some o =>
           Ok tt (MkConfig (<[this := MkOwner p (deleter o)]> (owners c))
                           (mem c) (calls c))
       | None => Undefined
       end.

Definition write_deleter (this : nat) (d : D) : M Cfg unit :=
  λ c, match owners c !! this with
       | Some o =>
           Ok tt (MkConfig (<[this := MkOwner (ptr o) d]> (owners c))
                           (mem c) (calls c))
       | None => Undefined
       end.

(** [std::move(x.deleter)] used as the source of an initialisation or
    assignment: yields the value and leaves the source moved-from. *)
Definition move_deleter (x : nat) : M Cfg D :=
  d <- read_deleter x ;;
  write_deleter x (moved_from d) ;;
  ret d.

(** The member initialisers have run: the object at [this] starts its
    lifetime. Storage that already holds a live owner cannot be used. *)
Definition begin_lifetime (this : nat) (o : MyUniquePtr D) : M Cfg unit :=
  λ c, match owners c !! this with
       | Some _ => Undefined
       | None => Ok tt (MkConfig (<[this := o]> (owners c)) (mem c) (calls c))
       end.

Definition end_lifetime (this : nat) : M Cfg unit :=
  λ c, match owners c !! this with
       | Some _ => Ok tt (MkConfig (delete this (owners c)) (mem c) (calls c))
       | None => Undefined
       end.

(** The call [deleter(ptr)]. *)
Definition invoke (d : D) (p : Z) : M Cfg unit :=
  λ c, match call d p (owners c) (mem c) with
       | Some m' => Ok tt (MkConfig (owners c) m' (calls c ++ [(d, p)]))
       | None => Undefined
       end.

(** *** Constructors *)

(** [MyUniquePtr() : ptr(nullptr) {}] *)
Definition ctor_default (this : nat) : M Cfg unit :=
  begin_lifetime this (MkOwner nullptr default_init).

(** [explicit MyUniquePtr(T* p) : ptr(p) {}] *)
Definition ctor_ptr (this : nat) (p : Z) : M Cfg unit :=
  begin_lifetime this (MkOwner p default_init).

(** [MyUniquePtr(T* p, Deleter d) : ptr(p), deleter(d) {}] *)
Definition ctor_ptr_deleter (this : nat) (p : Z) (d : D) : M Cfg unit :=
  begin_lifetime this (MkOwner p d).

(** [MyUniquePtr(MyUniquePtr&& other) noexcept
      : ptr(other.ptr), deleter(std::move(other.deleter))
    { other.ptr = nullptr; }] *)
Definition ctor_move (this other : nat) : M Cfg unit :=
  p <- read_ptr other ;;
  d <- move_deleter other ;;
  begin_lifetime this (MkOwner p d) ;;
  write_ptr other nullptr.

(** *** Observers and modifiers *)

(** [T* get() const { return ptr; }] *)
Definition get (this : nat) : M Cfg Z := read_ptr this.

(** [T* release() { T* temp = ptr; ptr = nullptr; return temp; }] *)
Definition release (this : nat) : M Cfg Z :=
  temp <- read_ptr this ;;
  write_ptr this nullptr ;;
  ret temp.

(** [void reset(T* p = nullptr) { if (ptr) { deleter(ptr); } ptr = p; }] *)
Definition reset (this : nat) (p : Z) : M Cfg unit :=
  cur <- read_ptr this ;;
  (if decide (cur ≠ nullptr)
   then d <- read_deleter this ;; invoke d cur
   else ret tt) ;;
  write_ptr this p.

(** [MyUniquePtr& operator=(MyUniquePtr&& other) noexcept]; the result is
    [*this]. *)
Definition move_assign (this other : nat) : M Cfg nat :=
  (if decide (this ≠ other)
   then reset this nullptr ;;
        p <- read_ptr other ;;
        write_ptr this p ;;
        d <- move_deleter other ;;
        write_deleter this d ;;
        write_ptr other nullptr
   else ret tt) ;;
  ret this.

(** [~MyUniquePtr() { reset(); }], after which the object is gone. *)
Definition dtor (this : nat) : M Cfg unit :=
  reset this nullptr ;;
  end_lifetime this.

(** [std::swap(a.ptr, b.ptr)] on two pointer members. *)
Definition std_swap_ptr (a b : nat) : M Cfg unit :=
  tmp <- read_ptr a ;;
  pb <- read_ptr b ;;
  write_ptr a pb ;;
  write_ptr b tmp.

(** [std::swap(a.deleter, b.deleter)]:
    [D tmp(std::move(a)); a = std::move(b); b = std::move(tmp);]. *)
Definition std_swap_deleter (a b : nat) : M Cfg unit :=
  tmp <- move_deleter a ;;
  db <- move_deleter b ;;
  write_deleter a db ;;
  write_deleter b tmp.

(** [void swap(MyUniquePtr& other) noexcept] *)
Definition swap (this other : nat) : M Cfg unit :=
  std_swap_ptr this other ;;
  std_swap_deleter this other.

(** The non-member [swap(lhs, rhs)]. *)
Definition swap_nonmember (lhs rhs : nat) : M Cfg unit := swap lhs rhs.

(** [T& operator*() const { return *ptr; }], read as an rvalue. *)
Definition deref (this : nat) : M Cfg T :=
  p <- read_ptr this ;;
  λ c, match load p 0 (mem c) with
       | Some v => Ok v c
       | None => Undefined
       end.

(** [T* operator->() const { return ptr; }] *)
Definition arrow (this : nat) : M Cfg Z := read_ptr this.

End MyUniquePtr.

(** ** The default releasers *)

(** The template argument of [DefaultDeleter]: an object type [T] picks
    the primary template, an array type [T[]] the specialisation. *)
Inductive shape : Set := object | array_of.

(** Both templates are empty structs: one value each. *)
Inductive DefaultDeleter (s : shape) : Set := default_deleter.
Arguments default_deleter {s}.

(** [void operator()(T* ptr) const { delete ptr; }] in the primary
    template, [{ delete[] ptr; }] in the specialisation. *)
Definition DefaultDeleter_call {T : Type} {s : shape} (_ : DefaultDeleter s)
  (p : Z) (m : Mem T) : option (Mem T) :=
  match s with
  | object => delete_expr new_single p m
  | array_of => delete_expr new_array p m
  end.

#[global] Instance DefaultDeleter_Deleter (T : Type) (s : shape)
  : Deleter T (DefaultDeleter s) :=
  {| call := λ d p _ m, DefaultDeleter_call d p m;
     moved_from := λ d, d;
     default_init := default_deleter |}.

(** A releaser passed as a function pointer, [void(*)(T*)]: copying and
    moving it are the same, and a default-initialised one cannot be
    called. *)
#[global] Instance function_pointer_Deleter (T : Type)
  : Deleter T (Z → Mem T → option (Mem T)) :=
  {| call := λ f p _ m, f p m;
     moved_from := λ f, f;
     default_init := λ _ _, None |}.

(** ** The free constructors *)

Section make_unique.
Context {T : Type} `{!Allocator T}.

Local Open Scope cxx_scope.

(** A new-expression as a step of the machine: [std::bad_alloc] leaves
    the state as it was. *)
Definition new_ {D : Type} (f : new_form) (init : list T) : M (Config T D) Z :=
  λ c, match new_expr f init (mem c) with
       | Some (p, m') => Ok p (MkConfig (owners c) m' (calls c))
       | None => Throw bad_alloc c
       end.

(** [MyUniquePtr<T> make_unique(Args&&... args)
      { return MyUniquePtr<T>(new T(std::forward<Args>(args)...)); }]
    where [v] is the value [T(args...)], built in the caller's storage
    [result]. *)
Definition make_unique (result : nat) (v : T)
  : M (Config T (DefaultDeleter object)) unit :=
  p <- new_ new_single [v] ;;
  ctor_ptr result p.

End make_unique.

(** ** The types of the handles *)

(** The dynamic model above does not look at pointer types. An owner of
    [T] elements that releases with [delete[]] is there the instantiation
    [MyUniquePtr<T, DefaultDeleter<T[]>>], with the element type as first
    argument. [MyUniquePtr<T[]>], which the array overload of
    [make_unique] returns, is another instantiation; what follows is the
    typing of the expressions it is built from. *)

(** The object types that the templates tell apart: [int], an array of
    unknown bound [U[]] and a pointer [U*]. *)
Inductive cxx_type : Set :=
| int_type
| array_of_unknown_bound (element : cxx_type)
| pointer_to (pointee : cxx_type).

#[global] Instance cxx_type_eq_dec : EqDecision cxx_type.
Proof. solve_decision. Defined.

(** An argument of type [A*] initialises a parameter of type [B*].
    Among these types (no class types, no [void], no cv-qualifiers, no
    arrays of known bound) a pointer converts implicitly to its own type
    only. *)
Definition pointer_converts (A B : cxx_type) : bool := bool_decide (A = B).

(** In [MyUniquePtr<T, Deleter>] the member [T* ptr], the parameter of
    [explicit MyUniquePtr(T* p)] and the parameter of [reset(T* p)] all
    point to [T]. *)
Definition handle_pointee (T : cxx_type) : cxx_type := T.

(** [DefaultDeleter<X>::operator()(T* ptr)]: in the primary template [T]
    is [X]; for [X = U[]] the specialisation [DefaultDeleter<T[]>] is
    chosen, where [T] is [U]. *)
Definition DefaultDeleter_pointee (X : cxx_type) : cxx_type :=
  match X with
  | array_of_unknown_bound U => U
  | _ => X
  end.

(** A new-expression yields a pointer to the object it made or, when
    that object is an array, to its first element. *)
Definition new_pointee (allocated : cxx_type) : cxx_type :=
  match allocated with
  | array_of_unknown_bound U => U
  | _ => allocated
  end.

(** The call [deleter(ptr)] in [reset] (and so in the destructor, which
    calls [reset]) of [MyUniquePtr<T>], whose releaser is the default
    template argument [DefaultDeleter<T>]. *)
Definition reset_typechecks (T : cxx_type) : bool :=
  pointer_converts (handle_pointee T) (DefaultDeleter_pointee T).

(** [MyUniquePtr<T>(new T(args...))] in the first [make_unique]. *)
Definition make_unique_typechecks (T : cxx_type) : bool :=
  pointer_converts (new_pointee T) (handle_pointee T).

(** [MyUniquePtr<T[]>(new T[size]())] in the second [make_unique]:
    [new T[size]()] makes an array of [T] and yields a [T*], and the
    constructor is the one of [MyUniquePtr<T[]>]. *)
Definition make_unique_array_typechecks (T : cxx_type) : bool :=
  pointer_converts T (handle_pointee (array_of_unknown_bound T)).

(** ** Concrete collaborators, for running the model *)

(** An allocation function with a budget of [limit] elements: it hands
    out the least unused non-null address while the budget lasts. *)
Definition cells_in_use {T : Type} (m : Mem T) : nat :=
  map_fold (λ _ b acc, length (cells b) + acc)%nat 0%nat (blocks m).

Definition arena_new {T : Type} (limit : nat) (m : Mem T) (n : nat) : option Z :=
  if decide (cells_in_use m + n ≤ limit)%nat
  then Some (fresh ({[nullptr]} ∪ dom (blocks m)))
  else None.

Definition arena (T : Type) (limit : nat) : Allocator T := arena_new limit.

(** An instrumented releaser: it captures the address of a counter,
    adds one to it on every call, and then deletes the object. *)
Inductive CountingDeleter : Set := counting (counter : Z).

Definition CountingDeleter_call (d : CountingDeleter) (p : Z) (m : Mem Z)
  : option (Mem Z) :=
  match d with
  | counting k =>
      match load k 0 m with
      | Some n =>
          match store k 0 (n + 1) m with
          | Some m' => delete_expr new_single p m'
          | None => None
          end
      | None => None
      end
  end.

#[global] Instance CountingDeleter_Deleter : Deleter Z CountingDeleter :=
  {| call := λ d p _ m, CountingDeleter_call d p m;
     moved_from := λ d, d;
     default_init := counting nullptr |}.

(** A releaser that re-enters: it captures a reference to an owner and
    the address of a cell, and on every call writes into the cell what
    that owner's [get()] answers at that moment, before deleting. *)
Inductive ProbeDeleter : Set := probe (watched : nat) (cell : Z).

Definition ProbeDeleter_call (d : ProbeDeleter) (p : Z)
  (os : gmap nat (MyUniquePtr ProbeDeleter)) (m : Mem Z) : option (Mem Z) :=
  match d with
  | probe w k =>
      match os !! w with
      | Some o =>
          match store k 0 (ptr o) m with
          | Some m' => delete_expr new_single p m'
          | None => None
          end
      | None => None
      end
  end.

#[global] Instance ProbeDeleter_Deleter : Deleter Z ProbeDeleter :=
  {| call := ProbeDeleter_call;
     moved_from := λ d, d;
     default_init := probe 0 nullptr |}.

(** ** Sample states *)

(** Three owners with counting releasers: owner 0 holds the object at 1
    and counts at 8, owner 1 holds the object at 2 and counts at 9,
    owner 2 is empty; a further object at 3 is owned by nobody yet. *)
Definition sample : Config Z CountingDeleter :=
  MkConfig
    {[ 0%nat := MkOwner 1 (counting 8);
       1%nat := MkOwner 2 (counting 9);
       2%nat := MkOwner nullptr (counting 9) ]}
    (MkMem {[ 1 := Block new_single [42];
              2 := Block new_single [7];
              3 := Block new_single [100];
              8 := Block new_single [0];
              9 := Block new_single [0] ]} [])
    [].

(** One owner whose releaser watches the owner itself and reports to the
    cell at 9. *)
Definition sample_probe : Config Z ProbeDeleter :=
  MkConfig
    {[ 0%nat := MkOwner 1 (probe 0 9) ]}
    (MkMem {[ 1 := Block new_single [42];
              2 := Block new_single [7];
              9 := Block new_single [0] ]} [])
    [].

(** No owner and an empty store, for either kind of default releaser. *)
Definition sample_empty (s : shape) : Config Z (DefaultDeleter s) :=
  MkConfig ∅ (MkMem ∅ []) [].

(** ** Scope exit *)

(** The end of a block: the owners declared in it are destroyed one
    after the other, in the order of the list. *)
Fixpoint destroy_all {T D : Type} `{!Deleter T D} (l : list nat)
  : M (Config T D) unit :=
  match l with
  | [] => ret tt
  | a :: l' => bind (dtor a) (λ _, destroy_all l')
  end.

(** ** Ownership invariants *)

(** The new-expression whose blocks the default releaser of a shape can
    release. *)
Definition release_form (s : shape) : new_form :=
  match s with
  | object => new_single
  | array_of => new_array
  end.

(** No non-null handle is held by two owners. *)
Definition exclusive {D : Type} (os : gmap nat (MyUniquePtr D)) : Prop :=
  map_Forall (λ a oa,
    map_Forall (λ b ob, ptr oa ≠ nullptr → ptr oa = ptr ob → a = b) os) os.

(** Every non-null handle held by an owner is the address of a live
    block made by the new-expression [f]. *)
Definition backed {T D : Type} (f : new_form) (c : Config T D) : Prop :=
  map_Forall (λ _ o, ptr o ≠ nullptr →
                     form <$> blocks (mem c) !! ptr o = Some f) (owners c).

(** Every live block sits at a non-null address that some owner holds. *)
Definition leak_free {T D : Type} (c : Config T D) : Prop :=
  map_Forall (λ p _, p ≠ nullptr ∧ map_Exists (λ _ o, ptr o = p) (owners c))
             (blocks (mem c)).

(** The three together, for owners with the default releaser. *)
Definition sound {T : Type} {s : shape} (c : Config T (DefaultDeleter s)) : Prop :=
  exclusive (owners c) ∧ backed (release_form s) c ∧ leak_free c.

(** Two owners of single objects holding the objects at 1 and 2, and
    an empty owner. *)
Definition sample_owned : Config Z (DefaultDeleter object) :=
  MkConfig
    {[ 0%nat := MkOwner 1 default_deleter;
       1%nat := MkOwner 2 default_deleter;
       2%nat := MkOwner nullptr default_deleter ]}
    (MkMem {[ 1 := Block new_single [42]; 2 := Block new_single [7] ]} [])
    [].

(** One object at 1 that no owner holds yet. *)
Definition sample_unowned : Config Z (DefaultDeleter object) :=
  MkConfig ∅ (MkMem {[ 1 := Block new_single [100] ]} []) [].

(** The same for owners whose releaser is a function pointer. *)
Definition sample_function : Config Z (Z → Mem Z → option (Mem Z)) :=
  MkConfig ∅ (MkMem {[ 1 := Block new_single [100] ]} []) [].

(** * Properties *)

(** ** Running the member functions on a live owner *)

Section stepping.
Context {T D : Type} `{!Deleter T D}.
Implicit Types (c : Config T D) (o : MyUniquePtr D) (this : nat).

Lemma read_ptr_live c this o :
  owners c !! this = Some o → read_ptr this c = Ok (ptr o) c.
Proof. unfold read_ptr. by intros ->. Qed.

Lemma read_deleter_live c this o :
  owners c !! this = Some o → read_deleter this c = Ok (deleter o) c.
Proof. unfold read_deleter. by intros ->. Qed.

Lemma write_ptr_live c this o p :
  owners c !! this = Some o →
  write_ptr this p c
  = Ok tt (MkConfig (<[this := MkOwner p (deleter o)]> (owners c)) (mem c) (calls c)).
Proof. unfold write_ptr. by intros ->. Qed.

Lemma write_deleter_live c this o d :
  owners c !! this = Some o →
  write_deleter this d c
  = Ok tt (MkConfig (<[this := MkOwner (ptr o) d]> (owners c)) (mem c) (calls c)).
Proof. unfold write_deleter. by intros ->. Qed.

Lemma move_deleter_live c x o :
  owners c !! x = Some o →
  move_deleter x c
  = Ok (deleter o)
       (MkConfig (<[x := MkOwner (ptr o) (moved_from (deleter o))]> (owners c))
                 (mem c) (calls c)).
Proof.
  intros Hx. unfold move_deleter, bind, ret.
  rewrite (read_deleter_live _ _ _ Hx), (write_deleter_live _ _ _ _ Hx). done.
Qed.

Lemma invoke_defined c d p m' :
  call d p (owners c) (mem c) = Some m' →
  invoke d p c = Ok tt (MkConfig (owners c) m' (calls c ++ [(d, p)])).
Proof. unfold invoke. by intros ->. Qed.

Lemma reset_live_nonnull c this h d p m' :
  owners c !! this = Some (MkOwner h d) →
  h ≠ nullptr →
  call d h (owners c) (mem c) = Some m' →
  reset this p c
  = Ok tt (MkConfig (<[this := MkOwner p d]> (owners c)) m' (calls c ++ [(d, h)])).
Proof.
  intros Hthis Hh Hcall. unfold reset, bind.
  rewrite (read_ptr_live _ _ _ Hthis). cbn [ptr].
  rewrite decide_True by done.
  rewrite (read_deleter_live _ _ _ Hthis). cbn [deleter].
  rewrite (invoke_defined _ _ _ _ Hcall).
  by rewrite (write_ptr_live _ _ (MkOwner h d)).
Qed.

Lemma reset_live_undefined c this h d p :
  owners c !! this = Some (MkOwner h d) →
  h ≠ nullptr →
  call d h (owners c) (mem c) = None →
  reset this p c = Undefined.
Proof.
  intros Hthis Hh Hcall. unfold reset, bind.
  rewrite (read_ptr_live _ _ _ Hthis). cbn [ptr].
  rewrite decide_True by done.
  rewrite (read_deleter_live _ _ _ Hthis). cbn [deleter].
  unfold invoke. by rewrite Hcall.
Qed.

Lemma reset_live_null c this d p :
  owners c !! this = Some (MkOwner nullptr d) →
  reset this p c
  = Ok tt (MkConfig (<[this := MkOwner p d]> (owners c)) (mem c) (calls c)).
Proof.
  intros Hthis. unfold reset, bind.
  rewrite (read_ptr_live _ _ _ Hthis). cbn [ptr].
  rewrite decide_False by (intros Hne; by apply Hne).
  unfold ret. by rewrite (write_ptr_live _ _ (MkOwner nullptr d)).
Qed.

Lemma end_lifetime_live c this o :
  owners c !! this = Some o →
  end_lifetime this c = Ok tt (MkConfig (delete this (owners c)) (mem c) (calls c)).
Proof. unfold end_lifetime. by intros ->. Qed.

Lemma begin_lifetime_fresh c this o :
  owners c !! this = None →
  begin_lifetime this o c = Ok tt (MkConfig (<[this := o]> (owners c)) (mem c) (calls c)).
Proof. unfold begin_lifetime. by intros ->. Qed.

Lemma dtor_live_nonnull c this h d m' :
  owners c !! this = Some (MkOwner h d) →
  h ≠ nullptr →
  call d h (owners c) (mem c) = Some m' →
  dtor this c = Ok tt (MkConfig (delete this (owners c)) m' (calls c ++ [(d, h)])).
Proof.
  intros Hthis Hh Hcall. unfold dtor, bind.
  rewrite (reset_live_nonnull _ _ _ _ _ _ Hthis Hh Hcall).
  rewrite (end_lifetime_live _ _ (MkOwner nullptr d)) by apply lookup_insert_eq.
  cbn [owners mem calls]. by rewrite delete_insert_eq.
Qed.

Lemma dtor_live_null c this d :
  owners c !! this = Some (MkOwner nullptr d) →
  dtor this c = Ok tt (MkConfig (delete this (owners c)) (mem c) (calls c)).
Proof.
  intros Hthis. unfold dtor, bind.
  rewrite (reset_live_null _ _ _ _ Hthis).
  rewrite (end_lifetime_live _ _ (MkOwner nullptr d)) by apply lookup_insert_eq.
  cbn [owners mem calls]. by rewrite delete_insert_eq.
Qed.

End stepping.

(** Two owner tables are equal when they agree at every identity. *)
Ltac owners_eq :=
  apply map_eq; intros ?;
  rewrite ?lookup_insert, ?lookup_delete;
  repeat case_decide; simplify_eq; done.

(** The owner named by the next access is live in the current table. *)
Ltac live := cbn [owners mem calls]; by simplify_map_eq.

(** Run the next access through [this]. *)
Ltac step :=
  first [ erewrite read_ptr_live by live
        | erewrite read_deleter_live by live
        | erewrite write_ptr_live by live
        | erewrite write_deleter_live by live
        | erewrite move_deleter_live by live
        | erewrite end_lifetime_live by live
        | erewrite begin_lifetime_fresh by live ];
  cbn [ptr deleter owners mem calls].

Section ownership.
Context {T D : Type} `{!Deleter T D}.
Implicit Types (c : Config T D) (o : MyUniquePtr D) (d : D).

(** *** Move assignment *)

Lemma move_assign_distinct_nonnull c a b ha ra hb rb m' :
  a ≠ b →
  owners c !! a = Some (MkOwner ha ra) →
  owners c !! b = Some (MkOwner hb rb) →
  ha ≠ nullptr →
  call ra ha (owners c) (mem c) = Some m' →
  move_assign a b c
  = Ok a (MkConfig (<[b := MkOwner nullptr (moved_from rb)]>
                      (<[a := MkOwner hb rb]> (owners c)))
                   m' (calls c ++ [(ra, ha)])).
Proof.
  intros Hab Ha Hb Hha Hcall. unfold move_assign, bind.
  rewrite decide_True by done.
  rewrite (reset_live_nonnull _ _ _ _ _ _ Ha Hha Hcall).
  do 5 step. unfold ret. do 2 f_equal. owners_eq.
Qed.

Lemma move_assign_distinct_null c a b ra hb rb :
  a ≠ b →
  owners c !! a = Some (MkOwner nullptr ra) →
  owners c !! b = Some (MkOwner hb rb) →
  move_assign a b c
  = Ok a (MkConfig (<[b := MkOwner nullptr (moved_from rb)]>
                      (<[a := MkOwner hb rb]> (owners c)))
                   (mem c) (calls c)).
Proof.
  intros Hab Ha Hb. unfold move_assign, bind.
  rewrite decide_True by done.
  rewrite (reset_live_null _ _ _ _ Ha).
  do 5 step. unfold ret. do 2 f_equal. owners_eq.
Qed.

Lemma move_assign_self c a : move_assign a a c = Ok a c.
Proof. unfold move_assign, bind, ret. by rewrite decide_False by (intros Hne; by apply Hne). Qed.

(** C4: for distinct live owners [a] and [b], [a = std::move(b)] first
    releases what [a] holds (one releaser call on [a]'s handle with
    [a]'s releaser, made while both owners are still as they were; no
    call when [a] is empty), then [a] holds [b]'s handle and releaser and
    [b] is empty; [a = std::move(a)] changes nothing at all. *)
Theorem move_assign_releases_then_steals c a b ha ra hb rb :
  owners c !! a = Some (MkOwner ha ra) →
  owners c !! b = Some (MkOwner hb rb) →
  (a ≠ b → ha ≠ nullptr →
   ∀ m', call ra ha (owners c) (mem c) = Some m' →
     move_assign a b c
     = Ok a (MkConfig (<[b := MkOwner nullptr (moved_from rb)]>
                         (<[a := MkOwner hb rb]> (owners c)))
                      m' (calls c ++ [(ra, ha)])))
  ∧ (a ≠ b → ha = nullptr →
     move_assign a b c
     = Ok a (MkConfig (<[b := MkOwner nullptr (moved_from rb)]>
                         (<[a := MkOwner hb rb]> (owners c)))
                      (mem c) (calls c)))
  ∧ move_assign a a c = Ok a c.
Proof.
  intros Ha Hb. split_and!.
  - intros Hab Hha m' Hcall. by eapply move_assign_distinct_nonnull.
  - intros Hab ->. by eapply move_assign_distinct_null.
  - apply move_assign_self.
Qed.

(** *** Destruction *)

(** C2: destroying an owner that holds a resource makes exactly one
    releaser call, on the held handle with the stored releaser, and the
    store is what that one call leaves; destroying an owner whose handle
    is absent makes no call and leaves the store untouched. *)
Theorem dtor_releases_exactly_once c this h d :
  owners c !! this = Some (MkOwner h d) →
  (h ≠ nullptr →
   ∀ m', call d h (owners c) (mem c) = Some m' →
     dtor this c
     = Ok tt (MkConfig (delete this (owners c)) m' (calls c ++ [(d, h)])))
  ∧ (h = nullptr →
     dtor this c = Ok tt (MkConfig (delete this (owners c)) (mem c) (calls c))).
Proof.
  intros Hthis. split.
  - intros Hh m' Hcall. by apply dtor_live_nonnull.
  - intros ->. by eapply dtor_live_null.
Qed.

(** Adopting a handle with a releaser and then destroying the owner: one
    call, on that handle with that releaser, and the owner is gone. *)
Lemma adopt_then_destroy c this p d m' :
  owners c !! this = None →
  p ≠ nullptr →
  call d p (<[this := MkOwner p d]> (owners c)) (mem c) = Some m' →
  bind (ctor_ptr_deleter this p d) (λ _, dtor this) c
  = Ok tt (MkConfig (owners c) m' (calls c ++ [(d, p)])).
Proof.
  intros Hfresh Hp Hcall. unfold bind, ctor_ptr_deleter. step.
  erewrite dtor_live_nonnull; [|live|done|done].
  cbn [owners mem calls]. by rewrite delete_insert_id.
Qed.

(** *** reset *)

(** C3: on an owner holding a non-absent [h1], [reset(h2)] makes exactly
    one releaser call, the one on [h1], and then holds [h2]: storing
    [h2] makes no call. On an owner whose handle is absent it makes no
    call at all and holds the new handle, which is [nullptr] when the
    argument is left out. *)
Theorem reset_releases_old_stores_new c this h1 h2 d :
  owners c !! this = Some (MkOwner h1 d) →
  (h1 ≠ nullptr →
   ∀ m', call d h1 (owners c) (mem c) = Some m' →
     reset this h2 c
     = Ok tt (MkConfig (<[this := MkOwner h2 d]> (owners c)) m'
                       (calls c ++ [(d, h1)])))
  ∧ (h1 = nullptr →
     reset this h2 c
     = Ok tt (MkConfig (<[this := MkOwner h2 d]> (owners c)) (mem c) (calls c))).
Proof.
  intros Hthis. split.
  - intros Hh m' Hcall. by apply reset_live_nonnull.
  - intros ->. by eapply reset_live_null.
Qed.

(** C8: in [reset(h2)] on an owner holding a non-absent [h1], the
    releaser runs first and the handle is stored afterwards: the releaser
    is called on [h1] with the owner table as it was on entry, where
    [get()] still answers [h1]; [h2] is stored only in the state that the
    call returns, and not at all when the call does not return. *)
Theorem reset_invokes_before_storing c this h1 h2 d :
  owners c !! this = Some (MkOwner h1 d) →
  h1 ≠ nullptr →
  get this c = Ok h1 c
  ∧ reset this h2 c = bind (invoke d h1) (λ _, write_ptr this h2) c
  ∧ reset this h2 c
    = match call d h1 (owners c) (mem c) with
      | Some m' =>
          Ok tt (MkConfig (<[this := MkOwner h2 d]> (owners c)) m'
                          (calls c ++ [(d, h1)]))
      | None => Undefined
      end.
Proof.
  intros Hthis Hh.
  assert (reset this h2 c
          = match call d h1 (owners c) (mem c) with
            | Some m' =>
                Ok tt (MkConfig (<[this := MkOwner h2 d]> (owners c)) m'
                                (calls c ++ [(d, h1)]))
            | None => Undefined
            end) as Hreset.
  { destruct (call d h1 (owners c) (mem c)) as [m'|] eqn:Hcall.
    - by eapply reset_live_nonnull.
    - by eapply reset_live_undefined. }
  split_and!; [by apply (read_ptr_live c this (MkOwner h1 d))| |done].
  rewrite Hreset. unfold bind, invoke.
  destruct (call d h1 (owners c) (mem c)) as [m'|]; [|done].
  by step.
Qed.

(** *** Move construction *)

(** C5: move-constructing [b] from a live owner [a] makes no releaser
    call and leaves the store alone; afterwards [a.get()] is absent,
    [b.get()] is [a]'s former handle and [b] has [a]'s former releaser;
    destroying [a] then makes no releaser call either. *)
Theorem ctor_move_steals c a b h d :
  owners c !! a = Some (MkOwner h d) →
  owners c !! b = None →
  let c' := MkConfig (<[a := MkOwner nullptr (moved_from d)]>
                        (<[b := MkOwner h d]> (owners c)))
                     (mem c) (calls c) in
  ctor_move b a c = Ok tt c'
  ∧ get a c' = Ok nullptr c'
  ∧ get b c' = Ok h c'
  ∧ read_deleter b c' = Ok d c'
  ∧ dtor a c' = Ok tt (MkConfig (delete a (owners c')) (mem c) (calls c)).
Proof.
  intros Ha Hb c'.
  assert (a ≠ b) as Hab by congruence.
  assert (owners c' !! a = Some (MkOwner nullptr (moved_from d))) as Ha'
    by (subst c'; live).
  assert (owners c' !! b = Some (MkOwner h d)) as Hb'
    by (subst c'; live).
  split_and!.
  - unfold ctor_move, bind. do 4 step. subst c'. do 2 f_equal. owners_eq.
  - unfold get. by rewrite (read_ptr_live _ _ _ Ha').
  - unfold get. by rewrite (read_ptr_live _ _ _ Hb').
  - by rewrite (read_deleter_live _ _ _ Hb').
  - by rewrite (dtor_live_null _ _ _ Ha').
Qed.

(** *** release *)

(** C6: [release()] answers the held handle, leaves the owner absent and
    makes no releaser call; a second [release()] answers [nullptr] and
    changes nothing; destroying the owner afterwards makes no releaser
    call and leaves the store as it was. *)
Theorem release_hands_over c a h d :
  owners c !! a = Some (MkOwner h d) →
  let c1 := MkConfig (<[a := MkOwner nullptr d]> (owners c)) (mem c) (calls c) in
  release a c = Ok h c1
  ∧ get a c1 = Ok nullptr c1
  ∧ release a c1 = Ok nullptr c1
  ∧ dtor a c1 = Ok tt (MkConfig (delete a (owners c)) (mem c) (calls c)).
Proof.
  intros Ha c1.
  assert (owners c1 !! a = Some (MkOwner nullptr d)) as Ha1 by (subst c1; live).
  split_and!.
  - unfold release, bind, ret. by do 2 step.
  - unfold get. by rewrite (read_ptr_live _ _ _ Ha1).
  - unfold release, bind, ret. do 2 step. subst c1; cbn.
    by rewrite insert_insert_eq.
  - rewrite (dtor_live_null _ _ _ Ha1). subst c1; cbn.
    by rewrite delete_insert_eq.
Qed.

(** C10: [release()] writes the handle only: the owner keeps its
    releaser, every other owner, the store and the record of calls are
    as before; a handle adopted later with [reset(h')] is released, by a
    further [reset] or by the destructor, with that same releaser. *)
Theorem release_keeps_releaser c a h d :
  owners c !! a = Some (MkOwner h d) →
  ∃ c1,
    release a c = Ok h c1
    ∧ owners c1 !! a = Some (MkOwner nullptr d)
    ∧ (∀ k, k ≠ a → owners c1 !! k = owners c !! k)
    ∧ mem c1 = mem c
    ∧ calls c1 = calls c
    ∧ ∀ h' h'' m',
        h' ≠ nullptr →
        call d h' (<[a := MkOwner h' d]> (owners c)) (mem c) = Some m' →
        bind (reset a h') (λ _, reset a h'') c1
        = Ok tt (MkConfig (<[a := MkOwner h'' d]> (owners c)) m'
                          (calls c ++ [(d, h')]))
        ∧ bind (reset a h') (λ _, dtor a) c1
          = Ok tt (MkConfig (delete a (owners c)) m' (calls c ++ [(d, h')])).
Proof.
  intros Ha.
  exists (MkConfig (<[a := MkOwner nullptr d]> (owners c)) (mem c) (calls c)).
  split_and!; cbn [owners mem calls]; try done.
  - unfold release, bind, ret. by do 2 step.
  - apply lookup_insert_eq.
  - intros k Hk. by apply lookup_insert_ne.
  - intros h' h'' m' Hh' Hcall.
    split; unfold bind; (erewrite reset_live_null by live);
      cbn [owners mem calls]; rewrite insert_insert_eq.
    + erewrite reset_live_nonnull; [|live|done|done].
      cbn [owners mem calls]. by rewrite insert_insert_eq.
    + erewrite dtor_live_nonnull; [|live|done|done].
      cbn [owners mem calls]. by rewrite delete_insert_eq.
Qed.

(** *** swap *)

(** C7: swapping two live owners exchanges their handles and their
    releasers, touches no other owner, makes no releaser call, leaves the
    store alone (nothing is allocated or released) and always returns;
    the non-member [swap] does the same. *)
Theorem swap_exchanges c a b h1 r1 h2 r2 :
  owners c !! a = Some (MkOwner h1 r1) →
  owners c !! b = Some (MkOwner h2 r2) →
  ∃ os',
    swap a b c = Ok tt (MkConfig os' (mem c) (calls c))
    ∧ swap_nonmember a b c = Ok tt (MkConfig os' (mem c) (calls c))
    ∧ os' !! a = Some (MkOwner h2 r2)
    ∧ os' !! b = Some (MkOwner h1 r1)
    ∧ ∀ k, k ≠ a → k ≠ b → os' !! k = owners c !! k.
Proof.
  intros Ha Hb.
  exists (<[b := MkOwner h1 r1]> (<[a := MkOwner h2 r2]> (owners c))).
  assert (swap a b c
          = Ok tt (MkConfig (<[b := MkOwner h1 r1]>
                               (<[a := MkOwner h2 r2]> (owners c)))
                            (mem c) (calls c))) as Hswap.
  { unfold swap, std_swap_ptr, std_swap_deleter, bind.
    destruct (decide (a = b)) as [->|Hab].
    - simplify_eq. do 8 step. do 2 f_equal. owners_eq.
    - do 8 step. do 2 f_equal. owners_eq. }
  split_and!; try done.
  - destruct (decide (a = b)) as [->|Hab]; by simplify_map_eq.
  - by simplify_map_eq.
  - intros k Hka Hkb. by simplify_map_eq.
Qed.

End ownership.

(** ** The free store *)

Section free_store_facts.
Context {T : Type}.
Implicit Types (m : Mem T) (b : block T).

Lemma delete_expr_live m p b f :
  p ≠ nullptr →
  blocks m !! p = Some b →
  delete_expr f p m
  = if decide (form b = f)
    then Some (MkMem (delete p (blocks m)) (deleted m ++ [(f, p)]))
    else None.
Proof. intros Hp Hb. unfold delete_expr. rewrite decide_False by done. by rewrite Hb. Qed.

Lemma store_live m p b i v :
  blocks m !! p = Some b →
  (i < length (cells b))%nat →
  store p i v m
  = Some (MkMem (<[p := Block (form b) (<[i := v]> (cells b))]> (blocks m))
                (deleted m)).
Proof. intros Hb Hi. unfold store. rewrite Hb. by rewrite decide_True. Qed.

Lemma load_live m p b i :
  blocks m !! p = Some b → load p i m = cells b !! i.
Proof. intros Hb. unfold load. by rewrite Hb. Qed.

Lemma load_store m p b i j v m' :
  blocks m !! p = Some b →
  (i < length (cells b))%nat →
  store p i v m = Some m' →
  load p j m' = if decide (j = i) then Some v else load p j m.
Proof.
  intros Hb Hi. rewrite (store_live _ _ _ _ _ Hb Hi). intros [= <-].
  unfold load; cbn. rewrite lookup_insert_eq, Hb; cbn.
  case_decide as Hji.
  - subst j. by apply list_lookup_insert_eq.
  - by apply list_lookup_insert_ne.
Qed.

End free_store_facts.

(** ** The free constructors and the default releasers *)

Section free_constructors.
Context {T : Type} `{!Allocator T}.

Lemma new_succeeds {D : Type} (c : Config T D) f init p :
  operator_new (mem c) (length init) = Some p →
  new_ f init c
  = Ok p (MkConfig (owners c)
                   (MkMem (<[p := Block f init]> (blocks (mem c))) (deleted (mem c)))
                   (calls c)).
Proof. unfold new_, new_expr. by intros ->. Qed.

Lemma new_fails {D : Type} (c : Config T D) f init :
  operator_new (mem c) (length init) = None →
  new_ f init c = Throw bad_alloc c.
Proof. unfold new_, new_expr. by intros ->. Qed.

Lemma make_unique_returns (c : Config T (DefaultDeleter object)) result v p :
  owners c !! result = None →
  operator_new (mem c) 1 = Some p →
  make_unique result v c
  = Ok tt (MkConfig (<[result := MkOwner p default_deleter]> (owners c))
                    (MkMem (<[p := Block new_single [v]]> (blocks (mem c)))
                           (deleted (mem c)))
                    (calls c)).
Proof.
  intros Hres Hnew. unfold make_unique, bind.
  rewrite (new_succeeds _ _ _ p) by done.
  unfold ctor_ptr. by step.
Qed.

(** Destroying an owner with a default releaser, whatever its history:
    the delete-expression of its shape is evaluated on the handle, which
    is defined exactly on a block made by the matching new-expression. *)
Lemma dtor_default_deleter {s : shape} (c : Config T (DefaultDeleter s)) this h d b :
  owners c !! this = Some (MkOwner h d) →
  h ≠ nullptr →
  blocks (mem c) !! h = Some b →
  dtor this c
  = let f := match s with object => new_single | array_of => new_array end in
    if decide (form b = f)
    then Ok tt (MkConfig (delete this (owners c))
                         (MkMem (delete h (blocks (mem c)))
                                (deleted (mem c) ++ [(f, h)]))
                         (calls c ++ [(d, h)]))
    else Undefined.
Proof.
  intros Hthis Hh Hb.
  assert (call d h (owners c) (mem c)
          = delete_expr (match s with object => new_single | array_of => new_array end)
                        h (mem c)) as Hcall by (by destruct s).
  rewrite (delete_expr_live _ _ _ _ Hh Hb) in Hcall. cbn zeta.
  case_decide.
  - by apply dtor_live_nonnull.
  - unfold dtor, bind. by erewrite reset_live_undefined.
Qed.

(** C9: when the allocation function returns [p], [make_unique<T>(args)]
    returns normally; one block has been added to the store, at [p],
    made by the single-object new-expression and holding the value built
    from the arguments; the returned owner is the scalar kind, holds [p],
    and dereferences to that value. When the allocation function fails,
    [std::bad_alloc] reaches the caller with the state exactly as it was:
    no owner has been created and the store has no new block. *)
Theorem make_unique_allocates_or_throws
    (c : Config T (DefaultDeleter object)) result v :
  operator_new_contract T →
  owners c !! result = None →
  (∀ p, operator_new (mem c) 1 = Some p →
     let c' := MkConfig (<[result := MkOwner p default_deleter]> (owners c))
                        (MkMem (<[p := Block new_single [v]]> (blocks (mem c)))
                               (deleted (mem c)))
                        (calls c) in
     p ≠ nullptr
     ∧ blocks (mem c) !! p = None
     ∧ make_unique result v c = Ok tt c'
     ∧ get result c' = Ok p c'
     ∧ deref result c' = Ok v c')
  ∧ (operator_new (mem c) 1 = None →
     make_unique result v c = Throw bad_alloc c).
Proof.
  intros Hcontract Hres. split.
  - intros p Hnew c'. destruct (Hcontract _ _ _ Hnew) as [Hp Hfresh].
    split_and!; try done.
    + by apply make_unique_returns.
    + unfold get. subst c'. by step.
    + unfold deref, bind. subst c'. step.
      unfold load; cbn. by rewrite lookup_insert_eq.
  - intros Hnew. unfold make_unique, bind. by rewrite new_fails.
Qed.

End free_constructors.

(** ** The array path *)

Lemma array_type_is_not_its_element (U : cxx_type) :
  U ≠ array_of_unknown_bound U.
Proof.
  induction U as [|U IH|U IH]; [done| |done].
  intros [= Heq]. by apply IH.
Qed.

(** C1: at every element type [U] the array overload of [make_unique]
    is ill-typed: it hands the [U*] of [new U[size]()] to the
    constructor of [MyUniquePtr<U[]>], whose parameter is a pointer to
    [U[]]; and [reset], hence the destructor, of [MyUniquePtr<U[]>] is
    ill-typed as well: it hands that pointer to [U[]] to
    [DefaultDeleter<U[]>::operator()], whose parameter is a [U*]. The
    first overload at [T = U[]] is ill-typed too, so no free constructor
    produces an array owner. The scalar path type-checks at exactly the
    types that are not arrays. *)
Theorem array_path_is_ill_typed (U : cxx_type) :
  make_unique_array_typechecks U = false
  ∧ reset_typechecks (array_of_unknown_bound U) = false
  ∧ make_unique_typechecks (array_of_unknown_bound U) = false
  ∧ ∀ T, make_unique_typechecks T && reset_typechecks T
         = match T with
           | array_of_unknown_bound _ => false
           | _ => true
           end.
Proof.
  pose proof (array_type_is_not_its_element U) as Hne.
  assert (make_unique_typechecks (array_of_unknown_bound U) = false) as Hfirst.
  { unfold make_unique_typechecks, pointer_converts, new_pointee, handle_pointee.
    by apply bool_decide_eq_false. }
  split_and!.
  - unfold make_unique_array_typechecks, pointer_converts, handle_pointee.
    by apply bool_decide_eq_false.
  - unfold reset_typechecks, pointer_converts, handle_pointee, DefaultDeleter_pointee.
    apply bool_decide_eq_false. congruence.
  - done.
  - intros [|V|V].
    + done.
    + pose proof (array_type_is_not_its_element V) as HneV.
      unfold make_unique_typechecks, pointer_converts, new_pointee, handle_pointee.
      rewrite bool_decide_eq_false_2 by done. done.
    + unfold make_unique_typechecks, reset_typechecks, pointer_converts,
        new_pointee, handle_pointee, DefaultDeleter_pointee.
      by rewrite !bool_decide_eq_true_2.
Qed.

(** ** The concrete collaborators *)

Lemma arena_new_spec {T : Type} limit (m : Mem T) n p :
  arena_new limit m n = Some p → p ≠ nullptr ∧ blocks m !! p = None.
Proof.
  unfold arena_new. case_decide; [|done].
  intros [= <-].
  pose proof (is_fresh ({[nullptr]} ∪ dom (blocks m))) as Hfresh.
  split; [set_solver|].
  apply not_elem_of_dom. set_solver.
Qed.

Lemma arena_contract (T : Type) limit : @operator_new_contract T (arena T limit).
Proof. intros m n p. apply arena_new_spec. Qed.

(** The instrumented releaser counts one per destroyed owner. *)
Lemma dtor_counting_adds_one (c : Config Z CountingDeleter) this h k b f n rest :
  owners c !! this = Some (MkOwner h (counting k)) →
  h ≠ nullptr →
  k ≠ h →
  blocks (mem c) !! h = Some b →
  form b = new_single →
  blocks (mem c) !! k = Some (Block f (n :: rest)) →
  ∃ c', dtor this c = Ok tt c'
        ∧ load k 0 (mem c') = Some (n + 1)
        ∧ calls c' = calls c ++ [(counting k, h)].
Proof.
  intros Hthis Hh Hkh Hb Hform Hk.
  eexists. split_and!.
  - eapply dtor_live_nonnull; [done|done|].
    cbn. unfold CountingDeleter_call.
    rewrite (load_live _ _ _ _ Hk). cbn.
    rewrite (store_live _ _ _ _ _ Hk) by (cbn; lia). cbn.
    erewrite delete_expr_live; [|done|cbn; by simplify_map_eq].
    by rewrite decide_True.
  - unfold load; cbn. by simplify_map_eq.
  - done.
Qed.

(** A releaser that looks at its owner from inside [reset(h2)] finds the
    handle that is being released, neither [nullptr] nor [h2]. *)
Lemma reset_probe_sees_old_handle (c : Config Z ProbeDeleter) this h1 h2 k b bk :
  owners c !! this = Some (MkOwner h1 (probe this k)) →
  h1 ≠ nullptr →
  k ≠ h1 →
  blocks (mem c) !! h1 = Some b →
  form b = new_single →
  blocks (mem c) !! k = Some bk →
  (0 < length (cells bk))%nat →
  ∃ c', reset this h2 c = Ok tt c'
        ∧ load k 0 (mem c') = Some h1
        ∧ get this c' = Ok h2 c'.
Proof.
  intros Hthis Hh Hkh Hb Hform Hk Hlen.
  eexists. split_and!.
  - eapply reset_live_nonnull; [done|done|].
    cbn. rewrite Hthis. cbn.
    rewrite (store_live _ _ _ _ _ Hk Hlen).
    erewrite delete_expr_live; [|done|cbn; by simplify_map_eq].
    by rewrite decide_True.
  - unfold load; cbn. simplify_map_eq.
    by apply list_lookup_insert_eq.
  - unfold get. by step.
Qed.

(** ** The theorems at work on the sample states *)

Lemma dtor_releases_exactly_once_witness :
  (∃ m', call (counting 8) 1 (owners sample) (mem sample) = Some m'
         ∧ load 8 0 m' = Some 1
         ∧ dtor 0%nat sample
           = Ok tt (MkConfig (delete 0%nat (owners sample)) m'
                             (calls sample ++ [(counting 8, 1)])))
  ∧ dtor 2%nat sample
    = Ok tt (MkConfig (delete 2%nat (owners sample)) (mem sample) (calls sample)).
Proof.
  split.
  - eexists. split_and!; [vm_compute; reflexivity|vm_compute; reflexivity|].
    apply (proj1 (dtor_releases_exactly_once sample 0%nat 1 (counting 8)
                    ltac:(vm_compute; reflexivity)));
      [unfold nullptr; lia|vm_compute; reflexivity].
  - apply (proj2 (dtor_releases_exactly_once sample 2%nat nullptr (counting 9)
                    ltac:(vm_compute; reflexivity))).
    reflexivity.
Defined.

Lemma reset_releases_old_stores_new_witness :
  (∃ m', call (counting 8) 1 (owners sample) (mem sample) = Some m'
         ∧ reset 0%nat 3 sample
           = Ok tt (MkConfig (<[0%nat := MkOwner 3 (counting 8)]> (owners sample)) m'
                             (calls sample ++ [(counting 8, 1)])))
  ∧ reset 2%nat 3 sample
    = Ok tt (MkConfig (<[2%nat := MkOwner 3 (counting 9)]> (owners sample))
                      (mem sample) (calls sample)).
Proof.
  split.
  - eexists. split; [vm_compute; reflexivity|].
    apply (proj1 (reset_releases_old_stores_new sample 0%nat 1 3 (counting 8)
                    ltac:(vm_compute; reflexivity)));
      [unfold nullptr; lia|vm_compute; reflexivity].
  - apply (proj2 (reset_releases_old_stores_new sample 2%nat nullptr 3 (counting 9)
                    ltac:(vm_compute; reflexivity))).
    reflexivity.
Defined.

Lemma move_assign_releases_then_steals_witness :
  (∃ m', call (counting 8) 1 (owners sample) (mem sample) = Some m'
         ∧ move_assign 0%nat 1%nat sample
           = Ok 0%nat
               (MkConfig (<[1%nat := MkOwner nullptr (counting 9)]>
                            (<[0%nat := MkOwner 2 (counting 9)]> (owners sample)))
                         m' (calls sample ++ [(counting 8, 1)])))
  ∧ move_assign 2%nat 1%nat sample
    = Ok 2%nat
        (MkConfig (<[1%nat := MkOwner nullptr (counting 9)]>
                     (<[2%nat := MkOwner 2 (counting 9)]> (owners sample)))
                  (mem sample) (calls sample))
  ∧ move_assign 0%nat 0%nat sample = Ok 0%nat sample.
Proof.
  split_and!.
  - eexists. split; [vm_compute; reflexivity|].
    apply (proj1 (move_assign_releases_then_steals sample 0%nat 1%nat
                    1 (counting 8) 2 (counting 9)
                    ltac:(vm_compute; reflexivity) ltac:(vm_compute; reflexivity)));
      [lia|unfold nullptr; lia|vm_compute; reflexivity].
  - apply (proj1 (proj2 (move_assign_releases_then_steals sample 2%nat 1%nat
                    nullptr (counting 9) 2 (counting 9)
                    ltac:(vm_compute; reflexivity) ltac:(vm_compute; reflexivity))));
      [lia|reflexivity].
  - apply (proj2 (proj2 (move_assign_releases_then_steals sample 0%nat 1%nat
                    1 (counting 8) 2 (counting 9)
                    ltac:(vm_compute; reflexivity) ltac:(vm_compute; reflexivity)))).
Defined.

Lemma reset_invokes_before_storing_witness :
  get 0%nat sample_probe = Ok 1 sample_probe
  ∧ ∃ c', reset 0%nat 2 sample_probe = Ok tt c'
          ∧ load 9 0 (mem c') = Some 1
          ∧ get 0%nat c' = Ok 2 c'.
Proof.
  destruct (reset_invokes_before_storing sample_probe 0%nat 1 2 (probe 0 9)
              ltac:(vm_compute; reflexivity) ltac:(unfold nullptr; lia))
    as (Hget & _ & Hreset).
  split; [exact Hget|].
  eexists. split_and!; [rewrite Hreset; vm_compute; reflexivity| |];
    vm_compute; reflexivity.
Defined.

Lemma ctor_move_steals_witness :
  ∃ c', ctor_move 5%nat 0%nat sample = Ok tt c'
        ∧ get 0%nat c' = Ok nullptr c'
        ∧ get 5%nat c' = Ok 1 c'
        ∧ read_deleter 5%nat c' = Ok (counting 8) c'
        ∧ dtor 0%nat c'
          = Ok tt (MkConfig (delete 0%nat (owners c')) (mem sample) (calls sample)).
Proof.
  eexists.
  exact (ctor_move_steals sample 0%nat 5%nat 1 (counting 8)
           ltac:(vm_compute; reflexivity) ltac:(vm_compute; reflexivity)).
Defined.

Lemma release_hands_over_witness :
  ∃ c1, release 0%nat sample = Ok 1 c1
        ∧ get 0%nat c1 = Ok nullptr c1
        ∧ release 0%nat c1 = Ok nullptr c1
        ∧ dtor 0%nat c1
          = Ok tt (MkConfig (delete 0%nat (owners sample)) (mem sample) (calls sample)).
Proof.
  eexists.
  exact (release_hands_over sample 0%nat 1 (counting 8)
           ltac:(vm_compute; reflexivity)).
Defined.

Lemma release_keeps_releaser_witness :
  ∃ c1 m',
    release 0%nat sample = Ok 1 c1
    ∧ owners c1 !! 0%nat = Some (MkOwner nullptr (counting 8))
    ∧ bind (reset 0%nat 3) (λ _, dtor 0%nat) c1
      = Ok tt (MkConfig (delete 0%nat (owners sample)) m'
                        (calls sample ++ [(counting 8, 3)]))
    ∧ load 8 0 m' = Some 1.
Proof.
  destruct (release_keeps_releaser sample 0%nat 1 (counting 8)
              ltac:(vm_compute; reflexivity))
    as (c1 & Hrel & Hown & _ & _ & _ & Hlater).
  exists c1. eexists. split_and!; [exact Hrel|exact Hown| |].
  - apply (Hlater 3 nullptr); [unfold nullptr; lia|vm_compute; reflexivity].
  - vm_compute; reflexivity.
Defined.

Lemma swap_exchanges_witness :
  ∃ os', swap 0%nat 1%nat sample = Ok tt (MkConfig os' (mem sample) (calls sample))
         ∧ swap_nonmember 0%nat 1%nat sample
           = Ok tt (MkConfig os' (mem sample) (calls sample))
         ∧ os' !! 0%nat = Some (MkOwner 2 (counting 9))
         ∧ os' !! 1%nat = Some (MkOwner 1 (counting 8)).
Proof.
  destruct (swap_exchanges sample 0%nat 1%nat 1 (counting 8) 2 (counting 9)
              ltac:(vm_compute; reflexivity) ltac:(vm_compute; reflexivity))
    as (os' & Hswap & Hnon & Ha & Hb & _).
  exists os'. split_and!; assumption.
Defined.

Lemma make_unique_allocates_or_throws_witness :
  (∃ c', @make_unique Z (arena Z 8) 0%nat 42 (sample_empty object) = Ok tt c'
         ∧ deref 0%nat c' = Ok 42 c')
  ∧ @make_unique Z (arena Z 0) 0%nat 42 (sample_empty object)
    = Throw bad_alloc (sample_empty object).
Proof.
  split.
  - destruct (proj1 (@make_unique_allocates_or_throws Z (arena Z 8)
                       (sample_empty object) 0%nat 42
                       (arena_contract Z 8) ltac:(vm_compute; reflexivity))
                1 ltac:(vm_compute; reflexivity))
      as (_ & _ & Hmake & _ & Hderef).
    eexists. split; [exact Hmake|exact Hderef].
  - apply (proj2 (@make_unique_allocates_or_throws Z (arena Z 0)
                    (sample_empty object) 0%nat 42
                    (arena_contract Z 0) ltac:(vm_compute; reflexivity))).
    vm_compute; reflexivity.
Defined.

(** * Further properties *)

(** Case analysis on lookups in an updated owner table. *)
Ltac split_lookups :=
  cbn [owners mem calls blocks deleted] in *;
  repeat match goal with
  | H : <[_ := _]> _ !! _ = Some _ |- _ =>
      apply lookup_insert_Some in H as [[? ?]|[? H]]
  | H : delete _ _ !! _ = Some _ |- _ =>
      apply lookup_delete_Some in H as [? H]
  end; simplify_eq/=.

Lemma exclusive_lookup {D : Type} (os : gmap nat (MyUniquePtr D)) a b oa ob :
  exclusive os →
  os !! a = Some oa →
  os !! b = Some ob →
  ptr oa ≠ nullptr →
  ptr oa = ptr ob →
  a = b.
Proof. intros Hex Ha Hb. exact (Hex a oa Ha b ob Hb). Qed.

(** Two distinct owners of one table cannot hold the same non-null
    handle. *)
Ltac by_exclusive Hex :=
  exfalso;
  match goal with
  | Hne : ?x ≠ ?y, H1 : ?os !! ?x = Some ?o1, H2 : ?os !! ?y = Some ?o2 |- _ =>
      apply Hne;
      first [ eapply (exclusive_lookup os x y o1 o2 Hex H1 H2)
            | symmetry; eapply (exclusive_lookup os y x o2 o1 Hex H2 H1) ];
      cbn in *; congruence
  end.

Ltac owned Hex := solve [ done | by eapply Hex | by_exclusive Hex ].

(** ** Round trips and compositions *)

Section compositions.
Context {T D : Type} `{!Deleter T D}.
Implicit Types (c : Config T D) (d : D).

Lemma swap_live c a b h1 r1 h2 r2 :
  owners c !! a = Some (MkOwner h1 r1) →
  owners c !! b = Some (MkOwner h2 r2) →
  swap a b c
  = Ok tt (MkConfig (<[b := MkOwner h1 r1]> (<[a := MkOwner h2 r2]> (owners c)))
                    (mem c) (calls c)).
Proof.
  intros Ha Hb. unfold swap, std_swap_ptr, std_swap_deleter, bind.
  destruct (decide (a = b)) as [->|Hab].
  - simplify_eq. do 8 step. do 2 f_equal. owners_eq.
  - do 8 step. do 2 f_equal. owners_eq.
Qed.

(** X1: swapping two live owners twice gives back exactly the state
    before, and [a.swap(b)] and [b.swap(a)] have the same effect. *)
Theorem swap_twice_restores c a b oa ob :
  owners c !! a = Some oa →
  owners c !! b = Some ob →
  bind (swap a b) (λ _, swap a b) c = Ok tt c
  ∧ swap b a c = swap a b c.
Proof.
  intros Ha Hb. destruct oa as [h1 r1], ob as [h2 r2]. split.
  - unfold bind. rewrite (swap_live _ _ _ _ _ _ _ Ha Hb).
    destruct (decide (a = b)) as [->|Hab].
    + simplify_eq. erewrite swap_live by live. cbn [owners mem calls].
      destruct c as [os m cs]; cbn in *. do 2 f_equal.
      rewrite !insert_insert_eq. by apply insert_id.
    + erewrite swap_live by live. cbn [owners mem calls].
      destruct c as [os m cs]; cbn in *. do 2 f_equal.
      apply map_eq. intros k. rewrite !lookup_insert.
      repeat case_decide; simplify_eq; done.
  - rewrite (swap_live _ _ _ _ _ _ _ Ha Hb), (swap_live _ _ _ _ _ _ _ Hb Ha).
    do 2 f_equal. destruct (decide (a = b)) as [->|Hab]; [by simplify_eq|].
    by apply insert_insert_ne.
Qed.

Lemma reset_release_id c a o :
  owners c !! a = Some o →
  bind (release a) (λ p, reset a p) c = Ok tt c.
Proof.
  intros Ha. destruct o as [h d]. unfold bind at 1, release, bind, ret.
  do 2 step. erewrite reset_live_null by live. cbn [owners mem calls].
  destruct c as [os m cs]; cbn in *. do 2 f_equal.
  rewrite insert_insert_eq. by apply insert_id.
Qed.

(** X2: [a.reset(a.release())] leaves the whole state as it was: the
    owner holds its handle again and no releaser call is made. *)
Theorem reset_of_release_restores c a o :
  owners c !! a = Some o →
  bind (release a) (λ p, reset a p) c = Ok tt c.
Proof. apply reset_release_id. Qed.

(** X3: move-constructing [b] from [a] and then move-assigning [b] back
    to [a] makes no releaser call and leaves [a] with its handle and
    releaser and [b] empty; destroying [b] then gives back exactly the
    state before. *)
Theorem move_out_and_back c a b h d :
  owners c !! a = Some (MkOwner h d) →
  owners c !! b = None →
  bind (ctor_move b a) (λ _, move_assign a b) c
  = Ok a (MkConfig (<[b := MkOwner nullptr (moved_from d)]> (owners c))
                   (mem c) (calls c))
  ∧ bind (ctor_move b a) (λ _, bind (move_assign a b) (λ _, dtor b)) c = Ok tt c.
Proof.
  intros Ha Hb. assert (a ≠ b) as Hab by congruence.
  assert (ctor_move b a c
          = Ok tt (MkConfig (<[a := MkOwner nullptr (moved_from d)]>
                               (<[b := MkOwner h d]> (owners c)))
                            (mem c) (calls c))) as Hmove.
  { unfold ctor_move, bind. do 4 step. do 2 f_equal. owners_eq. }
  assert (bind (ctor_move b a) (λ _, move_assign a b) c
          = Ok a (MkConfig (<[b := MkOwner nullptr (moved_from d)]> (owners c))
                           (mem c) (calls c))) as Hback.
  { unfold bind. rewrite Hmove.
    erewrite move_assign_distinct_null; [|done|live|live].
    cbn [owners mem calls]. do 2 f_equal.
    apply map_eq. intros k. rewrite !lookup_insert.
    repeat case_decide; simplify_eq; done. }
  split; [done|].
  unfold bind in *. rewrite Hmove in *. rewrite Hback.
  erewrite dtor_live_null by live. cbn [owners mem calls].
  rewrite delete_insert_id by done. by destruct c.
Qed.

(** X4: a default-constructed owner answers [nullptr] to [get()], and
    its construction followed by its destruction leaves the state as it
    was, with no releaser call. *)
Theorem ctor_default_lifetime c a :
  owners c !! a = None →
  bind (ctor_default a) (λ _, bind (get a) (λ p, bind (dtor a) (λ _, ret p))) c
  = Ok nullptr c.
Proof.
  intros Ha. unfold bind, ctor_default, get, ret. do 2 step.
  erewrite dtor_live_null by live. cbn [owners mem calls].
  rewrite delete_insert_id by done. by destruct c.
Qed.

(** X5: after [b] is move-constructed from [a], [*b] is what [*a] was
    and [*a] has no defined behaviour (the source is empty and
    [operator*] does not check for a null handle). *)
Theorem deref_after_move c a b h d v :
  owners c !! a = Some (MkOwner h d) →
  owners c !! b = None →
  blocks (mem c) !! nullptr = None →
  deref a c = Ok v c →
  ∃ c', ctor_move b a c = Ok tt c'
        ∧ deref b c' = Ok v c'
        ∧ deref a c' = Undefined.
Proof.
  intros Ha Hb Hnull Hderef. assert (a ≠ b) as Hab by congruence.
  eexists. split_and!.
  - unfold ctor_move, bind. by do 4 step.
  - unfold deref, bind in *. step. rewrite (read_ptr_live _ _ _ Ha) in Hderef.
    cbn [ptr] in Hderef. destruct (load h 0 (mem c)); by simplify_eq.
  - unfold deref, bind. step. unfold load. by rewrite Hnull.
Qed.

(** X6: the constructor from a pointer and a releaser stores both and
    touches nothing else; destroying the owner then calls that releaser
    once on that pointer when it is non-null, and calls nothing, leaving
    the state as it was, when it is null. *)
Theorem ctor_ptr_deleter_adopts c a p d :
  owners c !! a = None →
  (∃ c1, ctor_ptr_deleter a p d c = Ok tt c1
         ∧ get a c1 = Ok p c1
         ∧ read_deleter a c1 = Ok d c1
         ∧ mem c1 = mem c
         ∧ calls c1 = calls c)
  ∧ (p ≠ nullptr →
     ∀ m', call d p (<[a := MkOwner p d]> (owners c)) (mem c) = Some m' →
       bind (ctor_ptr_deleter a p d) (λ _, dtor a) c
       = Ok tt (MkConfig (owners c) m' (calls c ++ [(d, p)])))
  ∧ (p = nullptr →
     bind (ctor_ptr_deleter a p d) (λ _, dtor a) c = Ok tt c).
Proof.
  intros Ha. split_and!.
  - eexists. split_and!.
    + unfold ctor_ptr_deleter. by step.
    + unfold get. by step.
    + by step.
    + done.
    + done.
  - intros Hp m' Hcall. by apply adopt_then_destroy.
  - intros ->. unfold bind, ctor_ptr_deleter. step.
    erewrite dtor_live_null by live. cbn [owners mem calls].
    rewrite delete_insert_id by done. by destruct c.
Qed.

End compositions.

(** ** Sound states of default-releaser owners *)

Section soundness.
Context {T : Type} {s : shape}.
Implicit Types (c : Config T (DefaultDeleter s)) (m : Mem T).
Implicit Types (os : gmap nat (MyUniquePtr (DefaultDeleter s))).

(** Forgetting an empty owner. *)
Lemma sound_forget_empty os m cs a d :
  sound (MkConfig os m cs) →
  os !! a = Some (MkOwner nullptr d) →
  sound (MkConfig (delete a os) m cs).
Proof.
  intros (Hex & Hback & Hleak) Ha. cbn [owners mem calls] in *. split_and!.
  - intros k ok Hk k' ok' Hk' Hnz Heq. split_lookups. owned Hex.
  - intros k ok Hk. split_lookups. by eapply Hback.
  - intros p b Hp. destruct (Hleak p b Hp) as (Hnull & k & ok & Hk & Hptr).
    split; [done|]. exists k, ok. split; [|done]. cbn in *.
    apply lookup_delete_Some. split; [|done]. intros <-. simplify_eq/=.
Qed.

(** Releasing the block an owner holds and leaving the owner empty. *)
Lemma sound_release_block os m cs cs' a h d e :
  sound (MkConfig os m cs) →
  os !! a = Some (MkOwner h d) →
  h ≠ nullptr →
  sound (MkConfig (<[a := MkOwner nullptr d]> os)
                  (MkMem (delete h (blocks m)) (deleted m ++ [e])) cs').
Proof.
  intros (Hex & Hback & Hleak) Ha Hh. cbn [owners mem calls] in *. split_and!.
  - intros k ok Hk k' ok' Hk' Hnz Heq. split_lookups; owned Hex.
  - intros k ok Hk Hnz. split_lookups; try done.
    rewrite lookup_delete_ne; [by eapply Hback|].
    intros Heq. by_exclusive Hex.
  - intros p bl Hp. cbn in *. apply lookup_delete_Some in Hp as [Hne Hp].
    destruct (Hleak p bl Hp) as (Hnull & k & ok & Hk & Hptr).
    split; [done|]. exists k, ok. split; [|done]. cbn in *.
    apply lookup_insert_Some. right. split; [|done]. intros <-. simplify_eq/=.
Qed.

(** Handing the handle of [b] to an owner [a] that is empty or not yet
    alive, and leaving [b] empty. *)
Lemma sound_transfer os m cs a b hb rb ra' rb' :
  sound (MkConfig os m cs) →
  (∀ o, os !! a = Some o → ptr o = nullptr) →
  os !! b = Some (MkOwner hb rb) →
  a ≠ b →
  sound (MkConfig (<[b := MkOwner nullptr rb']> (<[a := MkOwner hb ra']> os)) m cs).
Proof.
  intros (Hex & Hback & Hleak) Ha Hb Hab. cbn [owners mem calls] in *. split_and!.
  - intros k ok Hk k' ok' Hk' Hnz Heq. split_lookups; owned Hex.
  - intros k ok Hk Hnz. split_lookups; try done.
    + by apply (Hback b _ Hb).
    + by eapply Hback.
  - intros p bl Hp. destruct (Hleak p bl Hp) as (Hnull & k & ok & Hk & Hptr).
    split; [done|]. cbn in *.
    destruct (decide (k = b)) as [->|Hkb].
    + simplify_eq/=. exists a, (MkOwner hb ra'). split; [|done].
      rewrite lookup_insert_ne by done. apply lookup_insert_eq.
    + exists k, ok. split; [|done].
      rewrite lookup_insert_ne by done. rewrite lookup_insert_ne; [done|].
      intros <-. apply Hnull. rewrite <- Hptr. by apply Ha.
Qed.

(** Exchanging what two owners hold. *)
Lemma sound_exchange os m cs a b oa ob :
  sound (MkConfig os m cs) →
  os !! a = Some oa →
  os !! b = Some ob →
  sound (MkConfig (<[b := oa]> (<[a := ob]> os)) m cs).
Proof.
  intros (Hex & Hback & Hleak) Ha Hb. cbn [owners mem calls] in *.
  destruct (decide (a = b)) as [->|Hab].
  { simplify_eq. rewrite insert_insert_eq, insert_id by done. done. }
  split_and!.
  - intros k ok Hk k' ok' Hk' Hnz Heq. split_lookups; owned Hex.
  - intros k ok Hk Hnz. split_lookups; by eapply Hback.
  - intros p bl Hp. destruct (Hleak p bl Hp) as (Hnull & k & ok & Hk & Hptr).
    split; [done|]. cbn in *.
    destruct (decide (k = a)) as [->|Hka]; [|destruct (decide (k = b)) as [->|Hkb]].
    + assert (ok = oa) as -> by congruence.
      exists b, oa. split; [apply lookup_insert_eq|done].
    + assert (ok = ob) as -> by congruence.
      exists a, ob. split; [|done].
      rewrite lookup_insert_ne by done. apply lookup_insert_eq.
    + exists k, ok. split; [|done]. by rewrite !lookup_insert_ne.
Qed.

(** A new owner adopting a new block. *)
Lemma sound_adopt_new os m cs a p d init :
  sound (MkConfig os m cs) →
  os !! a = None →
  blocks m !! p = None →
  p ≠ nullptr →
  sound (MkConfig (<[a := MkOwner p d]> os)
                  (MkMem (<[p := Block (release_form s) init]> (blocks m)) (deleted m))
                  cs).
Proof.
  intros (Hex & Hback & Hleak) Ha Hp Hnn. cbn [owners mem calls] in *.
  assert (∀ k ok, os !! k = Some ok → ptr ok ≠ p) as Hunowned.
  { intros k ok Hk Heq. destruct (decide (ptr ok = nullptr)) as [|Hnz]; [congruence|].
    specialize (Hback k ok Hk Hnz). cbn in Hback. rewrite Heq, Hp in Hback. done. }
  split_and!.
  - intros k ok Hk k' ok' Hk' Hnz Heq. split_lookups;
      try solve [ owned Hex | exfalso; by eapply Hunowned ].
  - intros k ok Hk Hnz. split_lookups.
    + by rewrite lookup_insert_eq.
    + rewrite lookup_insert_ne by (intros ->; by eapply Hunowned).
      by eapply Hback.
  - intros q bl Hq. cbn in *. apply lookup_insert_Some in Hq as [[<- <-]|[Hne Hq]].
    + split; [done|]. exists a, (MkOwner p d). split; [apply lookup_insert_eq|done].
    + destruct (Hleak q bl Hq) as (Hnull & k & ok & Hk & Hptr).
      split; [done|]. exists k, ok. split; [|done].
      cbn in Hk. rewrite lookup_insert_ne; [done|]. intros <-. congruence.
Qed.

(** On a backed owner the default releaser is defined: it deletes the
    block and journals the delete-expression of its shape. *)
Lemma call_default_backed c a h d :
  backed (release_form s) c →
  owners c !! a = Some (MkOwner h d) →
  h ≠ nullptr →
  call d h (owners c) (mem c)
  = Some (MkMem (delete h (blocks (mem c)))
                (deleted (mem c) ++ [(release_form s, h)]))
  ∧ size (blocks (mem c)) = S (size (delete h (blocks (mem c)))).
Proof.
  intros Hback Ha Hh. specialize (Hback a _ Ha Hh). cbn in Hback.
  destruct (blocks (mem c) !! h) as [b|] eqn:Hb; [|done].
  cbn in Hback. assert (form b = release_form s) as Hform by congruence.
  split.
  - cbn. transitivity (delete_expr (release_form s) h (mem c)); [by destruct s|].
    rewrite (delete_expr_live _ _ _ _ Hh Hb). by rewrite decide_True.
  - rewrite <- (insert_delete_id _ _ _ Hb) at 1.
    apply map_size_insert_None, lookup_delete_eq.
Qed.

Lemma reset_default_sound c a h d :
  sound c →
  owners c !! a = Some (MkOwner h d) →
  ∃ c', reset a nullptr c = Ok tt c'
        ∧ sound c'
        ∧ owners c' = <[a := MkOwner nullptr d]> (owners c)
        ∧ (length (deleted (mem c')) + size (blocks (mem c'))
           = length (deleted (mem c)) + size (blocks (mem c)))%nat.
Proof.
  intros Hsound Ha. destruct (decide (h = nullptr)) as [->|Hh].
  - eexists. split; [by eapply reset_live_null|].
    rewrite insert_id by done. by destruct c.
  - destruct (call_default_backed c a h d (proj1 (proj2 Hsound)) Ha Hh)
      as [Hcall Hsize].
    eexists. split; [by eapply reset_live_nonnull|].
    split_and!; [|done|].
    + destruct c as [os m cs]. by eapply sound_release_block.
    + cbn [mem blocks deleted]. rewrite length_app, Hsize. cbn. lia.
Qed.

Lemma dtor_sound_step c a o :
  sound c →
  owners c !! a = Some o →
  ∃ c', dtor a c = Ok tt c'
        ∧ sound c'
        ∧ owners c' = delete a (owners c)
        ∧ (length (deleted (mem c')) + size (blocks (mem c'))
           = length (deleted (mem c)) + size (blocks (mem c)))%nat.
Proof.
  intros Hsound Ha. destruct o as [h d].
  destruct (reset_default_sound c a h d Hsound Ha)
    as ([os1 m1 cs1] & Hreset & Hsound1 & Hown & Hcount).
  cbn [owners mem calls] in *. subst os1.
  exists (MkConfig (delete a (owners c)) m1 cs1).
  split_and!; [| |done|done].
  - unfold dtor, bind. rewrite Hreset.
    erewrite end_lifetime_live by apply lookup_insert_eq.
    cbn [owners mem calls]. by rewrite delete_insert_eq.
  - rewrite <- (delete_insert_eq (owners c) a (MkOwner nullptr d)).
    eapply sound_forget_empty; [done|apply lookup_insert_eq].
Qed.

(** X7: in a sound state (handles exclusive, each backed by a block of
    the right kind, every block held) the destructor of a default-releaser
    owner always returns; the state stays sound, only that owner
    disappears, and a block is deleted exactly when it is journalled. *)
Theorem dtor_keeps_sound c a o :
  sound c →
  owners c !! a = Some o →
  ∃ c', dtor a c = Ok tt c'
        ∧ sound c'
        ∧ owners c' = delete a (owners c)
        ∧ (length (deleted (mem c')) + size (blocks (mem c'))
           = length (deleted (mem c)) + size (blocks (mem c)))%nat.
Proof. apply dtor_sound_step. Qed.

(** X8: from a sound state, destroying every owner, in any order, always
    returns and leaves no owner and no block: every block that was live
    has been deleted, each one once. *)
Theorem destroy_all_empties_store l c :
  sound c →
  NoDup l →
  dom (owners c) = list_to_set l →
  ∃ c', destroy_all l c = Ok tt c'
        ∧ owners c' = ∅
        ∧ blocks (mem c') = ∅
        ∧ length (deleted (mem c'))
          = (length (deleted (mem c)) + size (blocks (mem c)))%nat.
Proof.
  revert c. induction l as [|a l IH]; intros c Hsound Hnodup Hdom.
  - assert (owners c = ∅) as Hown by (by apply dom_empty_inv_L).
    assert (blocks (mem c) = ∅) as Hblocks.
    { apply map_empty. intros p. destruct (blocks (mem c) !! p) as [b|] eqn:Hp; [|done].
      destruct (proj2 (proj2 Hsound) p b Hp) as (_ & k & ok & Hk & _).
      rewrite Hown in Hk. by rewrite lookup_empty in Hk. }
    exists c. split_and!; try done. rewrite Hblocks, map_size_empty. lia.
  - apply NoDup_cons in Hnodup as [Hnotin Hnodup].
    assert (is_Some (owners c !! a)) as [o Ha].
    { apply elem_of_dom. rewrite Hdom. apply elem_of_list_to_set. by left. }
    destruct (dtor_sound_step c a o Hsound Ha) as (c1 & Hdtor & Hsound1 & Hown1 & Hcount1).
    destruct (IH c1 Hsound1 Hnodup) as (c' & Hrest & Hown' & Hblocks' & Hcount').
    { rewrite Hown1, dom_delete_L, Hdom, list_to_set_cons.
      apply (not_elem_of_list_to_set (C:=gset nat)) in Hnotin. apply set_eq. intros x.
      rewrite elem_of_difference, elem_of_union, elem_of_singleton.
      split; [by intros [[->|?] ?]|]. intros Hx. split; [by right|by intros ->]. }
    exists c'. split_and!; try done.
    + cbn [destroy_all]. unfold bind. by rewrite Hdtor.
    + lia.
Qed.

(** X9: in a sound state move assignment between live default-releaser
    owners always returns and keeps the state sound; for distinct owners
    the target then holds what the source held and the source is empty. *)
Theorem move_assign_keeps_sound c a b oa ob :
  sound c →
  owners c !! a = Some oa →
  owners c !! b = Some ob →
  ∃ c', move_assign a b c = Ok a c'
        ∧ sound c'
        ∧ (a ≠ b → owners c' !! a = Some ob
                   ∧ ptr <$> owners c' !! b = Some nullptr).
Proof.
  intros Hsound Ha Hb. destruct (decide (a = b)) as [->|Hab].
  { exists c. split_and!; [apply move_assign_self|done|done]. }
  destruct oa as [ha ra], ob as [hb rb].
  assert (∀ m' cs',
    sound (MkConfig (<[a := MkOwner nullptr ra]> (owners c)) m' cs') →
    sound (MkConfig (<[b := MkOwner nullptr rb]> (<[a := MkOwner hb rb]> (owners c)))
                    m' cs')) as Hstep.
  { intros m' cs' Hs.
    rewrite <- (insert_insert_eq (owners c) a (MkOwner hb rb) (MkOwner nullptr ra)).
    eapply sound_transfer; [done| |by rewrite lookup_insert_ne|done].
    intros o. rewrite lookup_insert_eq. by intros [= <-]. }
  assert ((<[b := MkOwner nullptr rb]> (<[a := MkOwner hb rb]> (owners c))) !! a
            = Some (MkOwner hb rb)
          ∧ ptr <$> (<[b := MkOwner nullptr rb]> (<[a := MkOwner hb rb]> (owners c))) !! b
            = Some nullptr) as Hlook.
  { rewrite lookup_insert_ne by done. by rewrite !lookup_insert_eq. }
  destruct (decide (ha = nullptr)) as [->|Hha].
  - eexists. split; [by eapply move_assign_distinct_null|].
    split; [|intros _; exact Hlook].
    apply Hstep. rewrite insert_id by done. by destruct c.
  - destruct (call_default_backed c a ha ra (proj1 (proj2 Hsound)) Ha Hha)
      as [Hcall _].
    eexists. split; [by eapply move_assign_distinct_nonnull|].
    split; [|intros _; exact Hlook].
    apply Hstep. destruct c as [os m cs]. by eapply sound_release_block.
Qed.

(** X10: in a sound state move construction from a live owner always
    returns and keeps the state sound; the new owner holds what the
    source held and the source is empty. *)
Theorem ctor_move_keeps_sound c a b o :
  sound c →
  owners c !! a = Some o →
  owners c !! b = None →
  ∃ c', ctor_move b a c = Ok tt c'
        ∧ sound c'
        ∧ owners c' !! b = Some o
        ∧ ptr <$> owners c' !! a = Some nullptr.
Proof.
  intros Hsound Ha Hb. destruct o as [h d].
  assert (a ≠ b) as Hab by congruence.
  exists (MkConfig (<[a := MkOwner nullptr d]> (<[b := MkOwner h d]> (owners c)))
                   (mem c) (calls c)).
  split_and!.
  - unfold ctor_move, bind. do 4 step. do 2 f_equal. owners_eq.
  - destruct c as [os m cs]. eapply sound_transfer; try done.
    cbn in *. intros o. by rewrite Hb.
  - cbn. rewrite lookup_insert_ne by done. apply lookup_insert_eq.
  - cbn. by rewrite lookup_insert_eq.
Qed.

(** X11: in a sound state [swap] always returns and keeps the state
    sound, each owner holding what the other held. *)
Theorem swap_keeps_sound c a b oa ob :
  sound c →
  owners c !! a = Some oa →
  owners c !! b = Some ob →
  ∃ c', swap a b c = Ok tt c' ∧ sound c'
        ∧ owners c' !! a = Some ob ∧ owners c' !! b = Some oa.
Proof.
  intros Hsound Ha Hb.
  exists (MkConfig (<[b := oa]> (<[a := ob]> (owners c))) (mem c) (calls c)).
  split_and!.
  - destruct oa, ob. by apply swap_live.
  - destruct c as [os m cs]. by eapply sound_exchange.
  - cbn. destruct (decide (a = b)) as [->|Hab]; [|by simplify_map_eq].
    rewrite lookup_insert_eq. congruence.
  - cbn. apply lookup_insert_eq.
Qed.

(** X12: [release()] on an owner with a resource, in a sound state,
    returns the handle and leaves the block live but held by no owner:
    handles stay exclusive and backed, but the state is no longer
    leak-free. *)
Theorem release_orphans_block c a h d :
  sound c →
  owners c !! a = Some (MkOwner h d) →
  h ≠ nullptr →
  ∃ c1, release a c = Ok h c1
        ∧ exclusive (owners c1)
        ∧ backed (release_form s) c1
        ∧ is_Some (blocks (mem c1) !! h)
        ∧ (∀ k o, owners c1 !! k = Some o → ptr o ≠ h)
        ∧ ¬ leak_free c1.
Proof.
  intros (Hex & Hback & Hleak) Ha Hh.
  exists (MkConfig (<[a := MkOwner nullptr d]> (owners c)) (mem c) (calls c)).
  assert (is_Some (blocks (mem c) !! h)) as Hblock.
  { specialize (Hback a _ Ha Hh). cbn in Hback.
    destruct (blocks (mem c) !! h); [by eexists|done]. }
  assert (∀ k o, <[a := MkOwner nullptr d]> (owners c) !! k = Some o → ptr o ≠ h)
    as Hnobody.
  { intros k o Hk Heq. split_lookups; try done. by_exclusive Hex. }
  split_and!; try done.
  - unfold release, bind, ret. by do 2 step.
  - intros k ok Hk k' ok' Hk' Hnz Heq. split_lookups; owned Hex.
  - intros k ok Hk Hnz. split_lookups; try done. by eapply Hback.
  - intros Hleak'. destruct Hblock as [bl Hbl].
    destruct (Hleak' h bl Hbl) as (_ & k & ok & Hk & Hptr).
    by eapply Hnobody.
Qed.

(** *** Misuse that the class does not check *)

Lemma call_default_live c h d bl :
  h ≠ nullptr →
  blocks (mem c) !! h = Some bl →
  form bl = release_form s →
  call d h (owners c) (mem c)
  = Some (MkMem (delete h (blocks (mem c)))
                (deleted (mem c) ++ [(release_form s, h)])).
Proof.
  intros Hh Hbl Hform. cbn.
  transitivity (delete_expr (release_form s) h (mem c)); [by destruct s|].
  rewrite (delete_expr_live _ _ _ _ Hh Hbl). by rewrite decide_True.
Qed.

Lemma call_default_dead c h d :
  h ≠ nullptr →
  blocks (mem c) !! h = None →
  call d h (owners c) (mem c) = None.
Proof.
  intros Hh Hbl. cbn.
  transitivity (delete_expr (release_form s) h (mem c)); [by destruct s|].
  unfold delete_expr. rewrite decide_False by done. by rewrite Hbl.
Qed.

(** X13: the constructor from a raw pointer checks nothing: two owners
    can adopt the same block; destroying the first deletes it and leaves
    the second dangling, and destroying the second has no defined
    behaviour. *)
Theorem double_adoption_deletes_twice c a b p bl :
  owners c !! a = None →
  owners c !! b = None →
  a ≠ b →
  p ≠ nullptr →
  blocks (mem c) !! p = Some bl →
  form bl = release_form s →
  (∃ c1, bind (ctor_ptr a p) (λ _, bind (ctor_ptr b p) (λ _, dtor a)) c = Ok tt c1
         ∧ get b c1 = Ok p c1
         ∧ blocks (mem c1) !! p = None)
  ∧ bind (ctor_ptr a p) (λ _, bind (ctor_ptr b p) (λ _, bind (dtor a) (λ _, dtor b))) c
    = Undefined.
Proof.
  intros Ha Hb Hab Hp Hbl Hform.
  set (c2 := MkConfig (<[b := MkOwner p default_deleter]>
                         (<[a := MkOwner p default_deleter]> (owners c)))
                      (mem c) (calls c)).
  assert (dtor a c2
          = Ok tt (MkConfig (delete a (owners c2))
                            (MkMem (delete p (blocks (mem c)))
                                   (deleted (mem c) ++ [(release_form s, p)]))
                            (calls c ++ [(default_deleter, p)]))) as Hdtor.
  { apply (dtor_live_nonnull c2 a p default_deleter); [subst c2; live|done|].
    by apply (call_default_live c2 p default_deleter bl). }
  split.
  - eexists. split_and!.
    + unfold bind, ctor_ptr. do 2 step. exact Hdtor.
    + unfold get. subst c2. by step.
    + cbn. apply lookup_delete_eq.
  - unfold bind, ctor_ptr. do 2 step.
    change (match dtor a c2 with
            | Ok _ c' => dtor b c'
            | Throw e c' => Throw e c'
            | Undefined => Undefined
            end = Undefined).
    rewrite Hdtor.
    unfold dtor, bind. erewrite reset_live_undefined; [done|subst c2; live|done|].
    apply call_default_dead; [done|]. cbn. apply lookup_delete_eq.
Qed.

(** X14: [a.reset(a.get())] is not guarded: it deletes the block and
    stores the same handle again, so the owner dangles and destroying it
    has no defined behaviour. *)
Theorem reset_to_own_handle_dangles c a h d bl :
  owners c !! a = Some (MkOwner h d) →
  h ≠ nullptr →
  blocks (mem c) !! h = Some bl →
  form bl = release_form s →
  ∃ c1, bind (get a) (λ p, reset a p) c = Ok tt c1
        ∧ get a c1 = Ok h c1
        ∧ blocks (mem c1) !! h = None
        ∧ dtor a c1 = Undefined.
Proof.
  intros Ha Hh Hbl Hform. eexists. split_and!.
  - unfold bind, get. step.
    eapply reset_live_nonnull; [done|done|by eapply call_default_live].
  - unfold get. by step.
  - cbn. apply lookup_delete_eq.
  - unfold dtor, bind. erewrite reset_live_undefined; [done|live|done|].
    apply call_default_dead; [done|]. cbn. apply lookup_delete_eq.
Qed.

(** *** Two ways to transfer *)

(** X15: with the default releaser, move-constructing [b] from [a] has
    the same effect as constructing [b] from [a.release()]. *)
Theorem ctor_move_is_release_then_adopt c a b o :
  owners c !! a = Some o →
  owners c !! b = None →
  bind (release a) (λ p, ctor_ptr b p) c = ctor_move b a c.
Proof.
  intros Ha Hb. destruct o as [h []]. assert (a ≠ b) as Hab by congruence.
  unfold ctor_move, release, ctor_ptr, bind, ret. do 6 step.
  do 2 f_equal. owners_eq.
Qed.

Lemma move_assign_undefined c a b ha ra ob :
  a ≠ b →
  owners c !! a = Some (MkOwner ha ra) →
  owners c !! b = Some ob →
  ha ≠ nullptr →
  call ra ha (owners c) (mem c) = None →
  move_assign a b c = Undefined.
Proof.
  intros Hab Ha Hb Hha Hcall. unfold move_assign, bind.
  rewrite decide_True by done. by erewrite reset_live_undefined.
Qed.

(** X16: with the default releaser, [a = std::move(b)] has the same
    effect as [a.reset(b.release())], also when [a] and [b] are the same
    owner and also when the release has no defined behaviour. *)
Theorem move_assign_is_reset_of_release c a b oa ob :
  owners c !! a = Some oa →
  owners c !! b = Some ob →
  bind (release b) (λ p, reset a p) c = bind (move_assign a b) (λ _, ret tt) c.
Proof.
  intros Ha Hb. destruct (decide (a = b)) as [->|Hab].
  { rewrite (reset_release_id _ _ _ Hb). unfold bind. by rewrite move_assign_self. }
  destruct oa as [ha ra], ob as [hb rb].
  unfold bind at 1 2, release, bind, ret. do 2 step.
  destruct (decide (ha = nullptr)) as [->|Hha].
  - erewrite reset_live_null by live.
    erewrite move_assign_distinct_null by done.
    cbn [owners mem calls]. do 2 f_equal. destruct ra, rb. owners_eq.
  - destruct (call ra ha (owners c) (mem c)) as [m'|] eqn:Hcall.
    + erewrite reset_live_nonnull; [|live|done|exact Hcall].
      erewrite move_assign_distinct_nonnull by done.
      cbn [owners mem calls]. do 2 f_equal. destruct ra, rb. owners_eq.
    + erewrite reset_live_undefined; [|live|done|exact Hcall].
      by erewrite move_assign_undefined.
Qed.

End soundness.

(** ** A function pointer as releaser *)

Section function_pointer_releaser.
Context {T : Type}.
Implicit Types (c : Config T (Z → Mem T → option (Mem T))).

(** X17: with a function pointer as releaser, an owner built by the
    one-argument constructor has a default-initialised releaser:
    destroying or resetting it while it holds a non-null handle has no
    defined behaviour; with a null handle nothing is called and the
    state is as before. *)
Theorem function_pointer_needs_deleter c a p :
  owners c !! a = None →
  p ≠ nullptr →
  bind (ctor_ptr a p) (λ _, dtor a) c = Undefined
  ∧ bind (ctor_ptr a p) (λ _, reset a nullptr) c = Undefined
  ∧ bind (ctor_ptr a nullptr) (λ _, dtor a) c = Ok tt c.
Proof.
  intros Ha Hp.
  assert (bind (ctor_ptr a p) (λ _, reset a nullptr) c = Undefined) as Hreset.
  { unfold bind, ctor_ptr. step. by erewrite reset_live_undefined; [|live|done|]. }
  split_and!; [|done|].
  - unfold bind, ctor_ptr in *. revert Hreset. step. intros Hreset.
    unfold dtor, bind. by rewrite Hreset.
  - unfold bind, ctor_ptr. step. erewrite dtor_live_null by live.
    cbn [owners mem calls]. rewrite delete_insert_id by done. by destruct c.
Qed.

End function_pointer_releaser.

(** ** The scalar [make_unique] on sound states *)

Section make_unique_sound.
Context {T : Type} `{!Allocator T}.

(** X18: from a sound state the scalar [make_unique] either returns with
    the state sound again and the new owner holding a non-null handle,
    or throws [std::bad_alloc] with the state as it was. *)
Theorem make_unique_keeps_sound (c : Config T (DefaultDeleter object)) result v :
  operator_new_contract T →
  sound c →
  owners c !! result = None →
  (∃ c' p, make_unique result v c = Ok tt c'
           ∧ sound c'
           ∧ owners c' !! result = Some (MkOwner p default_deleter)
           ∧ p ≠ nullptr)
  ∨ make_unique result v c = Throw bad_alloc c.
Proof.
  intros Hcontract Hsound Hres.
  destruct (operator_new (mem c) 1) as [p|] eqn:Hnew.
  - destruct (Hcontract _ _ _ Hnew) as [Hp Hfresh].
    left. eexists _, p. split_and!; [by apply make_unique_returns| | |done].
    + destruct c as [os m cs]. by apply (sound_adopt_new (s:=object)).
    + cbn. apply lookup_insert_eq.
  - right. unfold make_unique, bind. by rewrite new_fails.
Qed.

End make_unique_sound.

(** ** The further properties at work on the sample states *)

Lemma sample_owned_sound : sound sample_owned.
Proof. unfold sound, exclusive, backed, leak_free. split_and!; compute_done. Qed.

Lemma swap_twice_restores_witness :
  bind (swap 0%nat 1%nat) (λ _, swap 0%nat 1%nat) sample = Ok tt sample
  ∧ swap 1%nat 0%nat sample = swap 0%nat 1%nat sample.
Proof.
  exact (swap_twice_restores sample 0%nat 1%nat
           (MkOwner 1 (counting 8)) (MkOwner 2 (counting 9))
           ltac:(vm_compute; reflexivity) ltac:(vm_compute; reflexivity)).
Defined.

Lemma reset_of_release_restores_witness :
  bind (release 0%nat) (λ p, reset 0%nat p) sample = Ok tt sample.
Proof.
  exact (reset_of_release_restores sample 0%nat (MkOwner 1 (counting 8))
           ltac:(vm_compute; reflexivity)).
Defined.

Lemma move_out_and_back_witness :
  bind (ctor_move 5%nat 0%nat) (λ _, move_assign 0%nat 5%nat) sample
  = Ok 0%nat (MkConfig (<[5%nat := MkOwner nullptr (counting 8)]> (owners sample))
                       (mem sample) (calls sample))
  ∧ bind (ctor_move 5%nat 0%nat)
         (λ _, bind (move_assign 0%nat 5%nat) (λ _, dtor 5%nat)) sample
    = Ok tt sample.
Proof.
  exact (move_out_and_back sample 0%nat 5%nat 1 (counting 8)
           ltac:(vm_compute; reflexivity) ltac:(vm_compute; reflexivity)).
Defined.

Lemma ctor_default_lifetime_witness :
  bind (ctor_default 5%nat)
       (λ _, bind (get 5%nat) (λ p, bind (dtor 5%nat) (λ _, ret p))) sample
  = Ok nullptr sample.
Proof.
  exact (ctor_default_lifetime sample 5%nat ltac:(vm_compute; reflexivity)).
Defined.

Lemma deref_after_move_witness :
  deref 0%nat sample = Ok 42 sample
  ∧ ∃ c', ctor_move 5%nat 0%nat sample = Ok tt c'
          ∧ deref 5%nat c' = Ok 42 c'
          ∧ deref 0%nat c' = Undefined.
Proof.
  split; [vm_compute; reflexivity|].
  exact (deref_after_move sample 0%nat 5%nat 1 (counting 8) 42
           ltac:(vm_compute; reflexivity) ltac:(vm_compute; reflexivity)
           ltac:(vm_compute; reflexivity) ltac:(vm_compute; reflexivity)).
Defined.

Lemma ctor_ptr_deleter_adopts_witness :
  ∃ m', bind (ctor_ptr_deleter 5%nat 3 (counting 9)) (λ _, dtor 5%nat) sample
        = Ok tt (MkConfig (owners sample) m' (calls sample ++ [(counting 9, 3)]))
        ∧ load 9 0 m' = Some 1
        ∧ bind (ctor_ptr_deleter 5%nat nullptr (counting 9)) (λ _, dtor 5%nat) sample
          = Ok tt sample.
Proof.
  eexists. split_and!.
  - apply (proj1 (proj2 (ctor_ptr_deleter_adopts sample 5%nat 3 (counting 9)
                           ltac:(vm_compute; reflexivity))));
      [unfold nullptr; lia|vm_compute; reflexivity].
  - vm_compute; reflexivity.
  - apply (proj2 (proj2 (ctor_ptr_deleter_adopts sample 5%nat nullptr (counting 9)
                           ltac:(vm_compute; reflexivity)))).
    reflexivity.
Defined.

Lemma dtor_keeps_sound_witness :
  ∃ c', dtor 0%nat sample_owned = Ok tt c'
        ∧ sound c'
        ∧ owners c' = delete 0%nat (owners sample_owned)
        ∧ (length (deleted (mem c')) + size (blocks (mem c'))
           = length (deleted (mem sample_owned)) + size (blocks (mem sample_owned)))%nat.
Proof.
  exact (dtor_keeps_sound sample_owned 0%nat (MkOwner 1 default_deleter)
           sample_owned_sound ltac:(vm_compute; reflexivity)).
Defined.

Lemma destroy_all_empties_store_witness :
  ∃ c', destroy_all [2; 1; 0]%nat sample_owned = Ok tt c'
        ∧ owners c' = ∅
        ∧ blocks (mem c') = ∅
        ∧ length (deleted (mem c')) = 2%nat.
Proof.
  exact (destroy_all_empties_store [2; 1; 0]%nat sample_owned
           sample_owned_sound ltac:(compute_done) ltac:(compute_done)).
Defined.

Lemma move_assign_keeps_sound_witness :
  ∃ c', move_assign 0%nat 1%nat sample_owned = Ok 0%nat c'
        ∧ sound c'
        ∧ (0%nat ≠ 1%nat →
           owners c' !! 0%nat = Some (MkOwner 2 default_deleter)
           ∧ ptr <$> owners c' !! 1%nat = Some nullptr).
Proof.
  exact (move_assign_keeps_sound sample_owned 0%nat 1%nat
           (MkOwner 1 default_deleter) (MkOwner 2 default_deleter)
           sample_owned_sound
           ltac:(vm_compute; reflexivity) ltac:(vm_compute; reflexivity)).
Defined.

Lemma ctor_move_keeps_sound_witness :
  ∃ c', ctor_move 5%nat 0%nat sample_owned = Ok tt c'
        ∧ sound c'
        ∧ owners c' !! 5%nat = Some (MkOwner 1 default_deleter)
        ∧ ptr <$> owners c' !! 0%nat = Some nullptr.
Proof.
  exact (ctor_move_keeps_sound sample_owned 0%nat 5%nat (MkOwner 1 default_deleter)
           sample_owned_sound
           ltac:(vm_compute; reflexivity) ltac:(vm_compute; reflexivity)).
Defined.

Lemma swap_keeps_sound_witness :
  ∃ c', swap 0%nat 1%nat sample_owned = Ok tt c'
        ∧ sound c'
        ∧ owners c' !! 0%nat = Some (MkOwner 2 default_deleter)
        ∧ owners c' !! 1%nat = Some (MkOwner 1 default_deleter).
Proof.
  exact (swap_keeps_sound sample_owned 0%nat 1%nat
           (MkOwner 1 default_deleter) (MkOwner 2 default_deleter)
           sample_owned_sound
           ltac:(vm_compute; reflexivity) ltac:(vm_compute; reflexivity)).
Defined.

Lemma release_orphans_block_witness :
  ∃ c1, release 0%nat sample_owned = Ok 1 c1
        ∧ exclusive (owners c1)
        ∧ backed new_single c1
        ∧ is_Some (blocks (mem c1) !! 1)
        ∧ (∀ k o, owners c1 !! k = Some o → ptr o ≠ 1)
        ∧ ¬ leak_free c1.
Proof.
  exact (release_orphans_block sample_owned 0%nat 1 default_deleter
           sample_owned_sound ltac:(vm_compute; reflexivity)
           ltac:(unfold nullptr; lia)).
Defined.

Lemma double_adoption_deletes_twice_witness :
  (∃ c1, bind (ctor_ptr 0%nat 1) (λ _, bind (ctor_ptr 1%nat 1) (λ _, dtor 0%nat))
           sample_unowned = Ok tt c1
         ∧ get 1%nat c1 = Ok 1 c1
         ∧ blocks (mem c1) !! 1 = None)
  ∧ bind (ctor_ptr 0%nat 1)
         (λ _, bind (ctor_ptr 1%nat 1) (λ _, bind (dtor 0%nat) (λ _, dtor 1%nat)))
      sample_unowned
    = Undefined.
Proof.
  exact (double_adoption_deletes_twice sample_unowned 0%nat 1%nat 1
           (Block new_single [100])
           ltac:(vm_compute; reflexivity) ltac:(vm_compute; reflexivity)
           ltac:(lia) ltac:(unfold nullptr; lia)
           ltac:(vm_compute; reflexivity) ltac:(reflexivity)).
Defined.

Lemma reset_to_own_handle_dangles_witness :
  ∃ c1, bind (get 0%nat) (λ p, reset 0%nat p) sample_owned = Ok tt c1
        ∧ get 0%nat c1 = Ok 1 c1
        ∧ blocks (mem c1) !! 1 = None
        ∧ dtor 0%nat c1 = Undefined.
Proof.
  exact (reset_to_own_handle_dangles sample_owned 0%nat 1 default_deleter
           (Block new_single [42])
           ltac:(vm_compute; reflexivity) ltac:(unfold nullptr; lia)
           ltac:(vm_compute; reflexivity) ltac:(reflexivity)).
Defined.

Lemma ctor_move_is_release_then_adopt_witness :
  bind (release 0%nat) (λ p, ctor_ptr 5%nat p) sample_owned
  = ctor_move 5%nat 0%nat sample_owned.
Proof.
  exact (ctor_move_is_release_then_adopt sample_owned 0%nat 5%nat
           (MkOwner 1 default_deleter)
           ltac:(vm_compute; reflexivity) ltac:(vm_compute; reflexivity)).
Defined.

Lemma move_assign_is_reset_of_release_witness :
  bind (release 1%nat) (λ p, reset 0%nat p) sample_owned
  = bind (move_assign 0%nat 1%nat) (λ _, ret tt) sample_owned.
Proof.
  exact (move_assign_is_reset_of_release sample_owned 0%nat 1%nat
           (MkOwner 1 default_deleter) (MkOwner 2 default_deleter)
           ltac:(vm_compute; reflexivity) ltac:(vm_compute; reflexivity)).
Defined.

Lemma function_pointer_needs_deleter_witness :
  bind (ctor_ptr 0%nat 1) (λ _, dtor 0%nat) sample_function = Undefined
  ∧ bind (ctor_ptr 0%nat 1) (λ _, reset 0%nat nullptr) sample_function = Undefined
  ∧ bind (ctor_ptr 0%nat nullptr) (λ _, dtor 0%nat) sample_function
    = Ok tt sample_function.
Proof.
  exact (function_pointer_needs_deleter sample_function 0%nat 1
           ltac:(vm_compute; reflexivity) ltac:(unfold nullptr; lia)).
Defined.

Lemma make_unique_keeps_sound_witness :
  ∃ c' p, @make_unique Z (arena Z 8) 5%nat 9 sample_owned = Ok tt c'
          ∧ sound c'
          ∧ owners c' !! 5%nat = Some (MkOwner p default_deleter)
          ∧ p ≠ nullptr.
Proof.
  destruct (@make_unique_keeps_sound Z (arena Z 8) sample_owned 5%nat 9
              (arena_contract Z 8) sample_owned_sound
              ltac:(vm_compute; reflexivity))
    as [Hreturns|Hthrows].
  - exact Hreturns.
  - exfalso. vm_compute in Hthrows. discriminate Hthrows.
Defined.
